(** * Autoregressive sampling of the GPT inference notebook

    A shallow embedding of [top_k_logits] and [sample] from
    [notebooks/GPT_model_inference.ipynb], together with the tensor
    primitives of the array library they call ([topk], [softmax],
    [multinomial], [cat], slicing).

    Conventions of the embedding:
    - a tensor of shape [(b, t)] is the list of its [b] rows, each a list of
      [t] entries; a tensor of shape [(b, t, V)] is a list of lists of rows;
    - token identifiers ([torch.long]) are integers [Z];
    - a floating-point score is an extended real: the special values
      [NaN], [-inf], [+inf] behave as IEEE 754 prescribes, a finite value
      is the real number it stands for;
    - what the array library computes with rounding, or leaves to its
      implementation, is not fixed here: the quotient of two finite values,
      the probabilities of a softmax and the order in which [topk] returns
      equal values are the three fields of a parameter [lib], of which only
      what every implementation guarantees is assumed ([faithful]);
    - the model and the ambient random generator are parameters of the
      development; every forward call is recorded in a trace so that
      statements about what the predictor is shown can be made. *)

From Stdlib Require Import Reals Lra Lia ZArith List Bool Permutation Sorted
  FunctionalExtensionality.
Import ListNotations.

Set Implicit Arguments.

(** ** Extended real scores *)

Inductive score : Type :=
| NaN
| NegInf
| Fin (r : R)
| PosInf.

Definition Rltb (a b : R) : bool := if Rlt_dec a b then true else false.

(** The comparison [a < b] of floating-point values: false as soon as one
    side is [NaN]. *)
Definition score_ltb (a b : score) : bool :=
  match a, b with
  | NaN, _ => false
  | _, NaN => false
  | NegInf, NegInf => false
  | NegInf, _ => true
  | Fin _, NegInf => false
  | Fin x, Fin y => Rltb x y
  | Fin _, PosInf => true
  | PosInf, _ => false
  end.

(** The order [topk] sorts by: [NaN] counts as the greatest value, equal
    values compare in both directions. *)
Definition topk_geb (a b : score) : bool :=
  match a, b with
  | NaN, _ => true
  | _, NaN => false
  | _, _ => negb (score_ltb a b)
  end.

Definition is_fin (s : score) : Prop :=
  match s with Fin _ => True | _ => False end.

Definition is_finb (s : score) : bool :=
  match s with Fin _ => true | _ => false end.

(** ** Exceptions *)

Inductive exn : Type := RuntimeError | IndexError.

Inductive result (A : Type) : Type :=
| Ok (a : A)
| Raise (e : exn).

Arguments Ok {A} a.
Arguments Raise {A} e.

Definition rbind {A B} (r : result A) (f : A -> result B) : result B :=
  match r with
  | Ok a => f a
  | Raise e => Raise e
  end.

Fixpoint mapM_result {A B} (f : A -> result B) (l : list A) : result (list B) :=
  match l with
  | [] => Ok []
  | a :: l' =>
      rbind (f a) (fun b => rbind (mapM_result f l') (fun bs => Ok (b :: bs)))
  end.

(** ** The array library *)

(** Entries paired with their position. *)
Definition indexed {A} (l : list A) : list (nat * A) :=
  combine (seq 0 (length l)) l.

(** Descending: every entry is at least every later one. *)
Definition descending (s : list (nat * score)) : Prop :=
  StronglySorted (fun p q => topk_geb (snd p) (snd q) = true) s.

(** The row has a proper softmax: no [NaN], no [+inf] (whose exponential
    makes the sum infinite and every quotient undefined) and at least one
    finite entry (otherwise the sum of exponentials is 0). *)
Definition softmax_defined (row : list score) : bool :=
  forallb (fun s => match s with NaN | PosInf => false | _ => true end) row
  && existsb is_finb row.

(** What the source takes from the array library and the library computes
    in floating point or leaves to its implementation:
    - [topk_order row k], the [k] entries [torch.topk] selects from [row],
      each with its position; which of several equal values is selected,
      and in which order equal values are returned, is not specified;
    - [true_divide a t], the quotient of a finite [a] by a finite [t]
      other than 0: rounded, and infinite when it overflows;
    - [softmax_prob row j], the probability [F.softmax] computes at
      position [j] of a row that has a proper softmax: a rounded quotient
      of a rounded exponential. *)
Record torch : Type := {
  topk_order : list score -> nat -> list (nat * score);
  true_divide : R -> R -> score;
  softmax_prob : list score -> nat -> R
}.

(** What every implementation guarantees. The entries [topk] selects are
    the first [k] of a descending arrangement of the row. In a row with a
    proper softmax no probability is negative, and a finite entry that no
    entry exceeds has a positive probability: its exponential, taken after
    the largest entry has been subtracted, is 1, and the sum of
    exponentials is at most the length of the row. *)
Record faithful (lib : torch) : Prop := {
  order_ok :
    forall row k, k <= length row ->
      exists s, Permutation s (indexed row) /\ descending s /\
                topk_order lib row k = firstn k s;
  prob_nonneg :
    forall row j, softmax_defined row = true -> (0 <= softmax_prob lib row j)%R;
  prob_pos :
    forall row j r,
      softmax_defined row = true -> nth_error row j = Some (Fin r) ->
      Forall (fun s => topk_geb (Fin r) s = true) row ->
      (0 < softmax_prob lib row j)%R
}.

(** *** An implementation with exact arithmetic and a stable order *)

(** Stable insertion into a descending list: the new entry, which comes
    from an earlier position than every entry of [s], stays in front of the
    entries it is not smaller than. *)
Fixpoint insert_desc (p : nat * score) (s : list (nat * score)) : list (nat * score) :=
  match s with
  | [] => [p]
  | q :: s' => if topk_geb (snd p) (snd q) then p :: s else q :: insert_desc p s'
  end.

Definition sort_desc (l : list (nat * score)) : list (nat * score) :=
  fold_right insert_desc [] l.

(** Sum of the exponentials of a row; [exp (-inf)] contributes nothing. *)
Definition exp_sum (row : list score) : R :=
  fold_right (fun s acc => match s with Fin r => (exp r + acc)%R | _ => acc end) 0%R row.

(** The probability an entry gets when the sum of exponentials is [S]. *)
Definition prob_of (S : R) (s : score) : R :=
  match s with
  | Fin r => (exp r / S)%R
  | _ => 0%R
  end.

(** Equal values in the order of their positions, quotients and
    probabilities without rounding. *)
Definition ideal : torch := {|
  topk_order := fun row k => firstn k (sort_desc (indexed row));
  true_divide := fun a t => Fin (a / t);
  softmax_prob := fun row j => prob_of (exp_sum row) (nth j row NaN)
|}.

(** *** The selection of the CPU kernel on short rows *)

(** For [k * 64 > n] the CPU kernel of [torch.topk] fills a queue with the
    [n] entries of the row and their positions, calls [std::nth_element]
    for position [k - 1] and sorts the [k - 1] entries in front of it.
    [nth_element] is an introselect: while more than three entries are in
    range, the median of three is moved to the front as the pivot and the
    rest is partitioned around it; the remaining entries are sorted by
    insertion. The queue is a list of positions, [before i j] says that the
    entry at position [i] compares before the entry at position [j]. *)
Section Kernel.

Variable before : nat -> nat -> bool.

Definition iter_swap (p q : nat) (queue : list nat) : list nat :=
  let a := nth p queue 0 in
  let b := nth q queue 0 in
  map (fun e => if Nat.eqb (fst e) p then b
                else if Nat.eqb (fst e) q then a else snd e)
      (indexed queue).

Definition move_median_to_first (result a b c : nat) (queue : list nat) : list nat :=
  let comp p q := before (nth p queue 0) (nth q queue 0) in
  if comp a b then
    if comp b c then iter_swap result b queue
    else if comp a c then iter_swap result c queue
    else iter_swap result a queue
  else if comp a c then iter_swap result a queue
  else if comp b c then iter_swap result c queue
  else iter_swap result b queue.

(** [while (comp(first, pivot)) ++first;] *)
Fixpoint scan_up (queue : list nat) (pivot fuel first : nat) : nat :=
  match fuel with
  | O => first
  | S fuel' =>
      if before (nth first queue 0) (nth pivot queue 0)
      then scan_up queue pivot fuel' (S first) else first
  end.

(** [while (comp(pivot, last)) --last;] *)
Fixpoint scan_down (queue : list nat) (pivot fuel last : nat) : nat :=
  match fuel with
  | O => last
  | S fuel' =>
      if before (nth pivot queue 0) (nth last queue 0)
      then scan_down queue pivot fuel' (last - 1) else last
  end.

Fixpoint unguarded_partition (fuel pivot first last : nat) (queue : list nat)
  : nat * list nat :=
  match fuel with
  | O => (first, queue)
  | S fuel' =>
      let first := scan_up queue pivot (length queue) first in
      let last := scan_down queue pivot (length queue) (last - 1) in
      if first <? last
      then unguarded_partition fuel' pivot (S first) last (iter_swap first last queue)
      else (first, queue)
  end.

(** Insertion from the back of a sorted prefix: the new entry moves in
    front of the entries it compares before. *)
Fixpoint linear_insert (i : nat) (sorted : list nat) : list nat :=
  match sorted with
  | [] => [i]
  | j :: sorted' =>
      if before i j then i :: sorted else j :: linear_insert i sorted'
  end.

Definition insertion_sort (first last : nat) (queue : list nat) : list nat :=
  firstn first queue
  ++ fold_left (fun sorted i => linear_insert i sorted)
               (firstn (last - first) (skipn first queue)) []
  ++ skipn last queue.

(** The result is [None] when the depth limit is reached, where the
    library switches to a heap selection that is not modelled. *)
Fixpoint introselect (depth_limit first nth_ last : nat) (queue : list nat)
  : option (list nat) :=
  if 3 <? last - first then
    match depth_limit with
    | O => None
    | S depth_limit' =>
        let mid := first + (last - first) / 2 in
        let queue := move_median_to_first first (first + 1) mid (last - 1) queue in
        let (cut, queue) :=
          unguarded_partition (length queue) first (first + 1) last queue in
        if cut <=? nth_ then introselect depth_limit' cut nth_ last queue
        else introselect depth_limit' first nth_ cut queue
    end
  else Some (insertion_sort first last queue).

(** The queue after the kernel has run on a row of [n] entries, when it
    takes the modelled path: [k * 64 > n], and at most 16 entries in front
    of position [k - 1], which [std::sort] orders by insertion. *)
Definition kernel_queue (n k : nat) : option (list nat) :=
  if (k =? 0) || (k * 64 <=? n) || (n <? k) || (16 <? k - 1) then None
  else
    match introselect (2 * Nat.log2 n) 0 (k - 1) n (seq 0 n) with
    | Some queue => Some (insertion_sort 0 (k - 1) queue)
    | None => None
    end.

End Kernel.

Fixpoint descendingb (s : list (nat * score)) : bool :=
  match s with
  | [] => true
  | p :: s' => forallb (fun q => topk_geb (snd p) (snd q)) s' && descendingb s'
  end.

(** The positions of [l] hold descending keys. *)
Fixpoint sorted_keys (key : nat -> nat) (l : list nat) : bool :=
  match l with
  | [] => true
  | i :: l' => forallb (fun j => key j <=? key i) l' && sorted_keys key l'
  end.

(** The row arranged as the kernel leaves it: the [k] selected entries in
    front, the others behind them. The arrangement is checked to hold every
    position once and to be descending, which it is whenever the kernel
    has run; the stable arrangement stands in otherwise, and outside the
    modelled path. *)
Definition kernel_arrangement (row : list score) (k : nat) : list (nat * score) :=
  let entry i := (i, nth i row NaN) in
  let before i j := negb (topk_geb (nth j row NaN) (nth i row NaN)) in
  match kernel_queue before (length row) k with
  | Some queue =>
      let s := map entry (firstn k queue) ++ sort_desc (map entry (skipn k queue)) in
      if (length queue =? length row)
         && forallb (fun i => existsb (Nat.eqb i) queue) (seq 0 (length row))
         && descendingb s
      then s else sort_desc (indexed row)
  | None => sort_desc (indexed row)
  end.

(** The order of the CPU kernel, with quotients and probabilities without
    rounding. *)
Definition cpu_kernel : torch := {|
  topk_order := fun row k => firstn k (kernel_arrangement row k);
  true_divide := fun a t => Fin (a / t);
  softmax_prob := fun row j => prob_of (exp_sum row) (nth j row NaN)
|}.

(** * The source *)

Section Library.

Variable lib : torch.

(** Division of a score by a Python float, [s / temperature]: division by
    zero and the infinities follow IEEE 754, the quotient of a finite score
    by another temperature is the library's. *)
Definition score_div (s : score) (temperature : R) : score :=
  match s with
  | NaN => NaN
  | Fin a =>
      if Req_dec_T temperature 0 then
        if Rlt_dec 0 a then PosInf
        else if Rlt_dec a 0 then NegInf else NaN
      else true_divide lib a temperature
  | PosInf => if Rlt_dec temperature 0 then NegInf else PosInf
  | NegInf => if Rlt_dec temperature 0 then PosInf else NegInf
  end.

(** ** [torch.topk] *)

(** [torch.topk(row, k)] along the last dimension: the [k] largest values
    in descending order with their indices, equal values as the library
    returns them. [k] outside [0..len] raises. *)
Definition topk (row : list score) (k : Z) : result (list score * list nat) :=
  if ((k <? 0) || (Z.of_nat (length row) <? k))%Z then Raise RuntimeError
  else
    let s := topk_order lib row (Z.to_nat k) in
    Ok (map snd s, map fst s).

(** [torch.topk] on a tensor of shape [(b, V)]: one [topk] per row. A
    batch without rows carries no width in this representation, so [k] is
    checked against the rows that are there. *)
Definition topk2 (t : list (list score)) (k : Z)
  : result (list (list score) * list (list nat)) :=
  rbind (mapM_result (fun row => topk row k) t)
        (fun vi => Ok (map fst vi, map snd vi)).

(** [_, ix = torch.topk(t, k, dim=-1)]: only the indices are kept. *)
Definition topk_indices (t : list (list score)) (k : Z)
  : result (list (list nat)) :=
  rbind (topk2 t k) (fun vix => Ok (snd vix)).

(** ** [top_k_logits] *)

(** [v[:, [-1]]]: the last column; an empty row has no index [-1]. *)
Definition last_col (v : list (list score)) : result (list score) :=
  mapM_result (fun r => match rev r with
                        | [] => Raise IndexError
                        | y :: _ => Ok y
                        end) v.

(** [out[out < th] = -inf], row by row against the row's threshold. *)
Definition mask_below (row : list score) (th : score) : list score :=
  map (fun s => if score_ltb s th then NegInf else s) row.

Fixpoint mask_rows (out : list (list score)) (th : list score) : list (list score) :=
  match out, th with
  | row :: out', t :: th' => mask_below row t :: mask_rows out' th'
  | _, _ => []
  end.

Definition top_k_logits (logits : list (list score)) (k : Z)
  : result (list (list score)) :=
  rbind (topk2 logits k) (fun vix =>
  let out := logits in
  rbind (last_col (fst vix)) (fun th =>
  Ok (mask_rows out th))).

(** ** [F.softmax] along the last dimension *)

(** A row without a proper softmax becomes [NaN] throughout. Otherwise an
    entry at [-inf] gets probability 0, its exponential, and a finite entry
    the probability the library computes. *)
Definition softmax_row (row : list score) : list score :=
  if softmax_defined row then
    map (fun e => match snd e with
                  | Fin _ => Fin (softmax_prob lib row (fst e))
                  | _ => Fin 0
                  end) (indexed row)
  else map (fun _ => NaN) row.

Definition softmax (logits : list (list score)) : list (list score) :=
  map softmax_row logits.

(** ** Slicing and concatenation *)

(** [x.size(1)]; a tensor without rows is taken to have no columns. *)
Definition size1 {A} (x : list (list A)) : nat :=
  match x with
  | [] => 0
  | r :: _ => length r
  end.

(** The Python slice [row[start:]]: a negative [start] counts from the
    end, and both ends are clamped to the row. *)
Definition slice_from {A} (start : Z) (row : list A) : list A :=
  let t := Z.of_nat (length row) in
  let s := if (start <? 0)%Z then Z.max (t + start) 0 else Z.min start t in
  skipn (Z.to_nat s) row.

(** [x if x.size(1) <= block_size else x[:, -block_size:]] *)
Definition x_cond (block_size : Z) (x : list (list Z)) : list (list Z) :=
  if (Z.of_nat (size1 x) <=? block_size)%Z then x
  else map (slice_from (- block_size)) x.

(** [logits[:, -1, :]]: the scores at the final position of every sequence
    of the batch. *)
Definition last_position (logits : list (list (list score)))
  : result (list (list score)) :=
  mapM_result (fun positions => match rev positions with
                                | [] => Raise IndexError
                                | v :: _ => Ok v
                                end) logits.

(** [torch.cat((x, ix), dim=1)]: the batch sizes have to agree. *)
Fixpoint cat1 (x ix : list (list Z)) : result (list (list Z)) :=
  match x, ix with
  | [], [] => Ok []
  | r :: x', i :: ix' => rbind (cat1 x' ix') (fun y => Ok ((r ++ i) :: y))
  | _, _ => Raise RuntimeError
  end.

(** Indices returned by [topk] and [multinomial] as a [long] tensor. *)
Definition as_long (ix : list (list nat)) : list (list Z) :=
  map (map Z.of_nat) ix.

(** ** [torch.multinomial] *)

Definition Rleb (a b : R) : bool := if Rle_dec a b then true else false.

(** The weights of a row of probabilities, when the row is one the sampler
    accepts: no [NaN], no infinity, no negative entry. *)
Fixpoint weights (row : list score) : option (list R) :=
  match row with
  | [] => Some []
  | Fin p :: row' =>
      if Rleb 0 p then option_map (cons p) (weights row') else None
  | _ :: _ => None
  end.

Definition Rsum (l : list R) : R := fold_right Rplus 0%R l.

(** A row to draw from: accepted weights whose sum is positive. *)
Definition drawable (row : list score) : option (list R) :=
  match weights row with
  | Some ws => if Rltb 0 (Rsum ws) then Some ws else None
  | None => None
  end.

Section Sampling.

(** The state of the library's global random generator, and the draw of
    one index from a categorical distribution given by weights. *)
Variable rng : Type.
Variable draw : rng -> list R -> nat * rng.

(** The model is used through three methods; [hidden] is what
    [local_forward(...).local_hidden] hands to [target_layer]. *)
Variable hidden : Type.

Record model : Type := {
  get_block_size : Z;
  local_forward : list (list Z) -> hidden;
  target_layer : hidden -> list (list (list score))
}.

(** What a run of [sample] can observe and change: the contexts shown to
    the model so far, oldest first, and the generator. *)
Record world : Type := {
  calls : list (list (list Z));
  gen : rng
}.

(** Computations that may raise; effects done before the exception stay. *)
Definition M (A : Type) : Type := world -> result A * world.

Definition ret {A} (a : A) : M A := fun w => (Ok a, w).

Definition bind {A B} (c : M A) (f : A -> M B) : M B :=
  fun w => match c w with
           | (Ok a, w') => f a w'
           | (Raise e, w') => (Raise e, w')
           end.

Definition lift {A} (r : result A) : M A := fun w => (r, w).

Notation "x <- c ;; k" := (bind c (fun x => k))
  (at level 61, c at next level, right associativity).

(** [model.local_forward(x_cond, training=False)], logged. *)
Definition call_local_forward (m : model) (ctx : list (list Z)) : M hidden :=
  fun w => (Ok (local_forward m ctx),
            {| calls := calls w ++ [ctx]; gen := gen w |}).

(** One draw per row, left to right, from the global generator. *)
Fixpoint draw_rows (ws : list (list R)) : M (list (list nat)) :=
  match ws with
  | [] => ret []
  | w :: ws' =>
      fun s =>
        let (i, g) := draw (gen s) w in
        bind (draw_rows ws') (fun ixs => ret ([i] :: ixs))
             {| calls := calls s; gen := g |}
  end.

Fixpoint all_drawable (probs : list (list score)) : option (list (list R)) :=
  match probs with
  | [] => Some []
  | row :: probs' =>
      match drawable row, all_drawable probs' with
      | Some ws, Some wss => Some (ws :: wss)
      | _, _ => None
      end
  end.

(** [torch.multinomial(probs, num_samples=1)]: the whole tensor is checked
    before anything is drawn. *)
Definition multinomial (probs : list (list score)) : M (list (list nat)) :=
  match all_drawable probs with
  | Some wss => draw_rows wss
  | None => lift (Raise RuntimeError)
  end.

(** ** [sample] *)

(** The body of the [for] loop: from the sequences so far to the sequences
    extended by one token. *)
Definition step (m : model) (block_size : Z) (temperature : R)
    (do_sample : bool) (top_k : option Z) (x : list (list Z))
  : M (list (list Z)) :=
  let x_cond := x_cond block_size x in
  logits <- call_local_forward m x_cond ;;
  let logits := target_layer m logits in
  logits <- lift (last_position logits) ;;
  let logits := map (map (fun s => score_div s temperature)) logits in
  logits <- lift (match top_k with
                  | Some k => top_k_logits logits k
                  | None => Ok logits
                  end) ;;
  let probs := softmax logits in
  ix <- (if do_sample then multinomial probs
         else lift (topk_indices probs 1)) ;;
  lift (cat1 x (as_long ix)).

Fixpoint sample_loop (m : model) (block_size : Z) (temperature : R)
    (do_sample : bool) (top_k : option Z) (n : nat) (x : list (list Z))
  : M (list (list Z)) :=
  match n with
  | O => ret x
  | S n' =>
      x' <- step m block_size temperature do_sample top_k x ;;
      sample_loop m block_size temperature do_sample top_k n' x'
  end.

(** [sample(model, x, steps, temperature, sample, top_k)]; [range(steps)]
    is empty for [steps <= 0]. [model.eval()] changes nothing observable
    here. *)
Definition sample (m : model) (x : list (list Z)) (steps : Z)
    (temperature : R) (do_sample : bool) (top_k : option Z)
  : M (list (list Z)) :=
  let block_size := (get_block_size m - 1)%Z in
  sample_loop m block_size temperature do_sample top_k (Z.to_nat steps) x.

End Sampling.

(** * Vocabulary of the statements *)

(** All rows of a tensor have [t] entries. *)
Definition cols {A} (t : nat) (x : list (list A)) : Prop :=
  Forall (fun r => length r = t) x.

(** Every row of [y] is the row of [x] followed by [n] more entries. *)
Definition extends_by (n : nat) (x y : list (list Z)) : Prop :=
  Forall2 (fun r r' => exists suffix, r' = r ++ suffix /\ length suffix = n) x y.

(** Number of entries of a row that satisfy [p]. *)
Definition count (p : score -> bool) (l : list score) : nat :=
  length (filter p l).

(** [th] is a [k]-th largest entry of [row]: fewer than [k] entries are
    strictly above it and at least [k] are not below it. *)
Definition kth_largest (k : nat) (th : score) (row : list score) : Prop :=
  In th row /\
  count (fun s => negb (topk_geb th s)) row < k /\
  k <= count (fun s => topk_geb s th) row.

(** [th] is the threshold [top_k_logits] uses on [row]: the last of the
    [k] values [topk] returns, one of the row's [k]-th largest entries. *)
Definition threshold_of (k : Z) (row : list score) (th : score) : Prop :=
  exists v ix rest,
    topk row k = Ok (v, ix) /\ rev v = th :: rest /\
    kth_largest (Z.to_nat k) th row.

(** The same for rows of real numbers. *)
Definition Rcount (p : R -> bool) (l : list R) : nat := length (filter p l).

Definition Reqb (a b : R) : bool := if Req_dec_T a b then true else false.

(** [vk] is a [k]-th largest entry of the real row [rs]. *)
Definition kth_largest_real (k : nat) (vk : R) (rs : list R) : Prop :=
  In vk rs /\
  Rcount (fun r => Rltb vk r) rs < k /\
  k <= Rcount (fun r => negb (Rltb r vk)) rs.

(** The configurations of the description: an absent [top_k], or one
    between 1 and the vocabulary size. *)
Definition valid_top_k (V : nat) (top_k : option Z) : Prop :=
  match top_k with
  | None => True
  | Some k => (1 <= k <= Z.of_nat V)%Z
  end.


(** The same, and the scores at the last position are finite when divided
    by [temperature]. *)
Definition predictor_finite {hidden} (V : nat) (m : model hidden) (temperature : R)
    (lo : nat) : Prop :=
  forall ctx t', cols t' ctx -> lo <= t' ->
    (Z.of_nat t' <= get_block_size m - 1)%Z ->
    length (target_layer m (local_forward m ctx)) = length ctx /\
    Forall (fun positions => exists init v,
                positions = init ++ [v] /\ length v = V /\
                Forall (fun s => is_fin (score_div s temperature)) v)
           (target_layer m (local_forward m ctx)).

(** A transformed score vector: real entries and [-inf] entries, not all
    of them [-inf]. *)
Definition score_row (row : list score) : Prop :=
  Forall (fun s => s = NegInf \/ is_fin s) row /\ Exists is_fin row.

(** In a row of real numbers, position [j] holds a largest entry. *)
Definition largest_at (ps : list R) (j : nat) : Prop :=
  j < length ps /\
  forall j', j' < length ps -> (nth j' ps 0 <= nth j ps 0)%R.

(** The index tensor of shape [(b, 1)] that holds [js]. *)
Definition column (js : list nat) : list (list nat) :=
  map (fun j => [j]) js.

(** The scores a step normalises: the model's scores at the final
    position, divided by the temperature and truncated when [top_k] is
    given. *)
Definition transformed {hidden} (m : model hidden) (block_size : Z)
    (temperature : R) (top_k : option Z) (x : list (list Z))
  : result (list (list score)) :=
  rbind (last_position (target_layer m (local_forward m (x_cond block_size x))))
        (fun l =>
           let logits := map (map (fun s => score_div s temperature)) l in
           match top_k with
           | Some k => top_k_logits logits k
           | None => Ok logits
           end).

(** What a step without sampling computes from the sequences alone. *)
Definition greedy_step {hidden} (m : model hidden) (block_size : Z)
    (temperature : R) (top_k : option Z) (x : list (list Z))
  : result (list (list Z)) :=
  rbind (transformed m block_size temperature top_k x) (fun l' =>
  rbind (topk_indices (softmax l') 1) (fun ix => cat1 x (as_long ix))).

(** A model that scores every position of every sequence with the same
    vector [out]. *)
Definition constant_model (bsz : Z) (out : list score) : model (list (list Z)) :=
  {| get_block_size := bsz;
     local_forward := fun ctx => ctx;
     target_layer := fun h => map (map (fun _ => out)) h |}.

(** A generator without state whose draw is always index 0. *)
Definition draw0 (g : unit) (ws : list R) : nat * unit := (0, g).

(** The world before anything has run. *)
Definition w0 : world unit := {| calls := []; gen := tt |}.

(** Row by row, [x] and [x'] end with the same [k] or more tokens. *)
Definition shares_tail (k : nat) (x x' : list (list Z)) : Prop :=
  Forall2 (fun r r' => exists p p' s,
               r = p ++ s /\ r' = p' ++ s /\ k <= length s) x x'.

(** [draw] behaves as a categorical sampler: on non-negative weights with
    a positive sum, the index it returns is within the row and has a
    positive weight. *)
Definition draw_ok {rng} (draw : rng -> list R -> nat * rng) : Prop :=
  forall g ws,
    Forall (fun p => (0 <= p)%R) ws -> (0 < Rsum ws)%R ->
    fst (draw g ws) < length ws /\ (0 < nth (fst (draw g ws)) ws 0)%R.

(** The index of the first positive weight. *)
Fixpoint first_positive (ws : list R) : nat :=
  match ws with
  | [] => 0
  | p :: ws' => if Rltb 0 p then 0 else S (first_positive ws')
  end.

(** A generator without state that draws the first index of positive
    weight. *)
Definition draw_first (g : unit) (ws : list R) : nat * unit :=
  (first_positive ws, g).

(** What a step computes from the context alone: the forward call, the
    transformed scores and the indices selected from them. *)
Definition next_tokens {rng hidden} (draw : rng -> list R -> nat * rng)
    (m : model hidden) (temperature : R) (do_sample : bool) (top_k : option Z)
    (ctx : list (list Z)) : M rng (list (list nat)) :=
  fun w =>
    let w1 := {| calls := calls w ++ [ctx]; gen := gen w |} in
    match rbind (last_position (target_layer m (local_forward m ctx)))
                (fun l =>
                   let logits := map (map (fun s => score_div s temperature)) l in
                   match top_k with
                   | Some k => top_k_logits logits k
                   | None => Ok logits
                   end) with
    | Ok l' =>
        if do_sample then multinomial draw (softmax l') w1
        else (topk_indices (softmax l') 1, w1)
    | Raise e => (Raise e, w1)
    end.

(** Every row of [y] is the row of [x] followed by token identifiers
    below [V]. *)
Definition extends_within (V : nat) (x y : list (list Z)) : Prop :=
  Forall2 (fun r r' => exists suffix,
               r' = r ++ suffix /\
               Forall (fun tok => (0 <= tok < Z.of_nat V)%Z) suffix) x y.

(** Throughout, the library is one that keeps the guarantees. *)
Hypothesis lib_ok : faithful lib.

(** * Properties *)

(** ** Evaluating comparisons of reals *)

Lemma Rltb_true a b : (a < b)%R -> Rltb a b = true.
Proof. intros H. unfold Rltb. destruct (Rlt_dec a b); [reflexivity | contradiction]. Qed.

Lemma Rltb_false a b : (b <= a)%R -> Rltb a b = false.
Proof. intros H. unfold Rltb. destruct (Rlt_dec a b); [lra | reflexivity]. Qed.

Lemma Rltb_spec a b : Rltb a b = true <-> (a < b)%R.
Proof. unfold Rltb. destruct (Rlt_dec a b); split; intros; try easy. Qed.

Lemma Rleb_true a b : (a <= b)%R -> Rleb a b = true.
Proof. intros H. unfold Rleb. destruct (Rle_dec a b); [reflexivity | contradiction]. Qed.

(** ** Shapes *)

Lemma size1_cols {A} t (r : list A) x : cols t (r :: x) -> size1 (r :: x) = t.
Proof. intros H. inversion H; subst. reflexivity. Qed.

(** ** The context window *)

Lemma slice_from_neg {A} (L : Z) (row : list A) :
  (0 < L)%Z ->
  slice_from (- L) row = skipn (length row - Z.to_nat L) row.
Proof.
  intros HL. unfold slice_from.
  destruct (Z.ltb_spec (- L) 0); [| lia].
  f_equal. lia.
Qed.

Lemma x_cond_length L x : length (x_cond L x) = length x.
Proof.
  unfold x_cond. destruct (Z.leb _ _); [reflexivity | apply length_map].
Qed.

(** For a positive limit, the context is row by row the trailing slice. *)
Lemma x_cond_trailing L t x :
  (0 < L)%Z -> cols t x ->
  x_cond L x = map (fun r => skipn (t - Nat.min t (Z.to_nat L)) r) x.
Proof.
  intros HL Hx. unfold x_cond.
  destruct x as [| r x'].
  - simpl. destruct (Z.leb _ _); reflexivity.
  - rewrite (size1_cols Hx).
    destruct (Z.leb_spec (Z.of_nat t) L) as [Hle | Hgt].
    + replace (t - Nat.min t (Z.to_nat L)) with 0 by lia.
      symmetry. erewrite map_ext; [apply map_id |]. reflexivity.
    + apply map_ext_in. intros a Ha.
      rewrite slice_from_neg by assumption.
      unfold cols in Hx. rewrite Forall_forall in Hx.
      rewrite (Hx a Ha). f_equal. lia.
Qed.

Lemma x_cond_cols L t x :
  (0 < L)%Z -> cols t x -> cols (Nat.min t (Z.to_nat L)) (x_cond L x).
Proof.
  intros HL Hx. rewrite (x_cond_trailing HL Hx).
  unfold cols in *. rewrite Forall_map.
  eapply Forall_impl; [| exact Hx].
  simpl. intros r Hr. rewrite length_skipn. lia.
Qed.

Lemma x_cond_unchanged L x :
  (Z.of_nat (size1 x) <= L)%Z -> x_cond L x = x.
Proof.
  intros H. unfold x_cond.
  destruct (Z.leb_spec (Z.of_nat (size1 x)) L); [reflexivity | lia].
Qed.

(** ** Concatenation and the selected indices *)

Lemma cat1_ok x ix y :
  cat1 x ix = Ok y ->
  Forall2 (fun r r' => exists i, In i ix /\ r' = r ++ i) x y.
Proof.
  revert ix y. induction x as [| r x IH]; intros [| i ix] y H; simpl in H; try discriminate.
  - inversion H. constructor.
  - destruct (cat1 x ix) as [y' |] eqn:E; simpl in H; [| discriminate].
    inversion H; subst. constructor.
    + exists i. split; [left; reflexivity | reflexivity].
    + eapply Forall2_impl; [| apply (IH _ _ E)].
      intros a b (j & Hj & ->). exists j. split; [right; assumption | reflexivity].
Qed.

Lemma cat1_total x ix :
  length x = length ix -> exists y, cat1 x ix = Ok y.
Proof.
  revert ix. induction x as [| r x IH]; intros [| i ix] H; simpl in H; try discriminate.
  - exists []. reflexivity.
  - destruct (IH ix) as [y Hy]; [lia |].
    exists ((r ++ i) :: y). simpl. rewrite Hy. reflexivity.
Qed.

Lemma cat1_singletons x ix y :
  Forall (fun i => length i = 1) ix ->
  cat1 x ix = Ok y -> extends_by 1 x y.
Proof.
  intros Hix H. apply cat1_ok in H.
  eapply Forall2_impl; [| exact H].
  intros a b (i & Hi & ->). exists i. split; [reflexivity |].
  rewrite Forall_forall in Hix. apply Hix. assumption.
Qed.

Lemma extends_by_refl x : extends_by 0 x x.
Proof.
  induction x; constructor; [| assumption].
  exists []. split; [symmetry; apply app_nil_r | reflexivity].
Qed.

Lemma extends_by_trans n p x y z :
  extends_by n x y -> extends_by p y z -> extends_by (n + p) x z.
Proof.
  intros H. revert z. induction H as [| r r' x y (s & -> & Hs) _ IH]; intros z Hz.
  - inversion Hz. constructor.
  - inversion Hz as [| ? r'' ? z' (s' & -> & Hs') Hz']; subst.
    constructor; [| apply IH; assumption].
    exists (s ++ s'). split; [symmetry; apply app_assoc |].
    rewrite length_app. lia.
Qed.


Lemma extends_by_cols n t x y :
  extends_by n x y -> cols t x -> cols (t + n) y.
Proof.
  intros H. induction H as [| r r' x y (s & -> & Hs) _ IH]; intros Hx.
  - constructor.
  - inversion Hx; subst. constructor; [| apply IH; assumption].
    rewrite length_app. lia.
Qed.

Lemma mapM_result_ok {A B} (f : A -> result B) l bs :
  mapM_result f l = Ok bs -> Forall2 (fun a b => f a = Ok b) l bs.
Proof.
  revert bs. induction l as [| a l IH]; intros bs H; simpl in H.
  - inversion H. constructor.
  - destruct (f a) as [b |] eqn:Ea; simpl in H; [| discriminate].
    destruct (mapM_result f l) as [bs' |] eqn:El; simpl in H; [| discriminate].
    inversion H; subst. constructor; [assumption | apply IH; reflexivity].
Qed.

Lemma mapM_result_total {A B} (f : A -> result B) l :
  Forall (fun a => exists b, f a = Ok b) l -> exists bs, mapM_result f l = Ok bs.
Proof.
  induction 1 as [| a l (b & Hb) _ (bs & Hbs)].
  - exists []. reflexivity.
  - exists (b :: bs). simpl. rewrite Hb. simpl. rewrite Hbs. reflexivity.
Qed.

Lemma indexed_length {A} (l : list A) : length (indexed l) = length l.
Proof. unfold indexed. rewrite length_combine, length_seq. lia. Qed.

Lemma topk_lengths row k v ix :
  topk row k = Ok (v, ix) ->
  length v = Z.to_nat k /\ length ix = Z.to_nat k /\
  (0 <= k <= Z.of_nat (length row))%Z.
Proof.
  unfold topk. intros H.
  destruct (orb _ _) eqn:E; [discriminate |].
  apply orb_false_elim in E. destruct E as [E1 E2].
  apply Z.ltb_ge in E1, E2.
  destruct (order_ok lib_ok row (k := Z.to_nat k)) as (s & Hp & _ & Hs); [lia |].
  rewrite Hs in H. inversion H; subst.
  rewrite !length_map, length_firstn, (Permutation_length Hp), indexed_length. lia.
Qed.

Lemma topk_total row k :
  (0 <= k <= Z.of_nat (length row))%Z -> exists v ix, topk row k = Ok (v, ix).
Proof.
  intros H. unfold topk.
  destruct (Z.ltb_spec k 0); [lia |].
  destruct (Z.ltb_spec (Z.of_nat (length row)) k); [lia |].
  simpl. eauto.
Qed.

(** The indices [topk2 probs 1] returns are one per row. *)
Lemma topk2_one_singletons probs v ix :
  topk2 probs 1 = Ok (v, ix) ->
  length ix = length probs /\ Forall (fun i => length i = 1) ix.
Proof.
  unfold topk2. intros H.
  destruct (mapM_result _ probs) as [vi |] eqn:E; simpl in H; [| discriminate].
  inversion H; subst. apply mapM_result_ok in E.
  split.
  - rewrite length_map. symmetry. eapply Forall2_length; eassumption.
  - rewrite Forall_map. clear H. induction E as [| row [v i] probs vi Hrow _ IH]; constructor.
    + simpl. apply topk_lengths in Hrow. destruct Hrow as (_ & -> & _). reflexivity.
    + assumption.
Qed.

(** ** The decode loop: what every run satisfies *)

Section Loop.

Variable rng : Type.
Variable draw : rng -> list R -> nat * rng.
Variable hidden : Type.

Lemma draw_rows_spec ws (w : world rng) :
  exists ixs g,
    draw_rows draw ws w = (Ok ixs, {| calls := calls w; gen := g |}) /\
    length ixs = length ws /\ Forall (fun i => length i = 1) ixs.
Proof.
  revert w. induction ws as [| a ws IH]; intros w; simpl.
  - exists [], (gen w). destruct w; simpl. repeat split. constructor.
  - destruct (draw (gen w) a) as [i g] eqn:E.
    destruct (IH {| calls := calls w; gen := g |}) as (ixs & g' & H & Hlen & Hall).
    exists ([i] :: ixs), g'. unfold bind, ret. rewrite H. simpl in *.
    repeat split; [lia | constructor; [reflexivity | assumption]].
Qed.

Lemma all_drawable_length probs wss :
  all_drawable probs = Some wss -> length wss = length probs.
Proof.
  revert wss. induction probs as [| row probs IH]; intros wss H; simpl in H.
  - inversion H. reflexivity.
  - destruct (drawable row); [| discriminate].
    destruct (all_drawable probs) as [wss' |]; [| discriminate].
    inversion H; subst. simpl. f_equal. apply IH. reflexivity.
Qed.

Lemma multinomial_calls probs (w : world rng) :
  calls (snd (multinomial draw probs w)) = calls w.
Proof.
  unfold multinomial. destruct (all_drawable probs) as [wss |].
  - destruct (draw_rows_spec wss w) as (ixs & g & H & _). rewrite H. reflexivity.
  - reflexivity.
Qed.

Lemma multinomial_ok probs (w w' : world rng) ix :
  multinomial draw probs w = (Ok ix, w') ->
  length ix = length probs /\ Forall (fun i => length i = 1) ix.
Proof.
  unfold multinomial. destruct (all_drawable probs) as [wss |] eqn:E.
  - destruct (draw_rows_spec wss w) as (ixs & g & H & Hlen & Hall).
    rewrite H. intros Heq. inversion Heq; subst.
    split; [| assumption]. rewrite Hlen. apply all_drawable_length. assumption.
  - unfold lift. discriminate.
Qed.

Lemma multinomial_none probs (w : world rng) :
  all_drawable probs = None ->
  multinomial draw probs w = (Raise RuntimeError, w).
Proof. intros H. unfold multinomial. rewrite H. reflexivity. Qed.

Lemma multinomial_some probs wss (w : world rng) :
  all_drawable probs = Some wss ->
  exists ix w', multinomial draw probs w = (Ok ix, w').
Proof.
  intros H. unfold multinomial. rewrite H.
  destruct (draw_rows_spec wss w) as (ixs & g & Hd & _). eauto.
Qed.

(** The first thing a step does is to show the cropped sequences to the
    model; nothing later in the step touches the trace. *)
Lemma step_calls (m : model hidden) bs T smp tk x (w : world rng) :
  calls (snd (step draw m bs T smp tk x w)) = calls w ++ [x_cond bs x].
Proof.
  unfold step, bind, call_local_forward, lift. simpl.
  destruct (last_position _) as [l |]; [| reflexivity].
  destruct (match tk with Some k => _ | None => _ end) as [l' |]; [| reflexivity].
  destruct smp.
  - pose proof (multinomial_calls (softmax l')
                  {| calls := calls w ++ [x_cond bs x]; gen := gen w |}) as Hc.
    destruct (multinomial draw (softmax l') _) as [[ix |] w']; simpl in *.
    + destruct (cat1 x (as_long ix)); simpl; assumption.
    + assumption.
  - destruct (topk_indices _ _) as [ix |]; [| reflexivity].
    destruct (cat1 x (as_long ix)); reflexivity.
Qed.

(** A step that returns has appended exactly one token to every row. *)
Lemma step_extends (m : model hidden) bs T smp tk x (w w' : world rng) x' :
  step draw m bs T smp tk x w = (Ok x', w') -> extends_by 1 x x'.
Proof.
  unfold step, bind, call_local_forward, lift. simpl.
  destruct (last_position _) as [l |]; [| discriminate].
  destruct (match tk with Some k => _ | None => _ end) as [l' |]; [| discriminate].
  destruct smp.
  - destruct (multinomial draw (softmax l') _) as [[ix |] w1] eqn:E; [| discriminate].
    apply multinomial_ok in E. destruct E as [_ Hs].
    destruct (cat1 x (as_long ix)) as [y |] eqn:Ec; intros H; inversion H; subst.
    eapply cat1_singletons; [| exact Ec].
    unfold as_long. rewrite Forall_map.
    eapply Forall_impl; [| exact Hs]. simpl. intros a Ha. rewrite length_map. assumption.
  - unfold topk_indices.
    destruct (topk2 (softmax l') 1) as [[v ix] |] eqn:E; simpl; [| discriminate].
    apply topk2_one_singletons in E. destruct E as [_ Hs].
    destruct (cat1 x (as_long ix)) as [y |] eqn:Ec; intros H; inversion H; subst.
    eapply cat1_singletons; [| exact Ec].
    unfold as_long. rewrite Forall_map.
    eapply Forall_impl; [| exact Hs]. simpl. intros a Ha. rewrite length_map. assumption.
Qed.

Lemma sample_loop_S (m : model hidden) bs T smp tk n x (w : world rng) :
  sample_loop draw m bs T smp tk (S n) x w =
  match step draw m bs T smp tk x w with
  | (Ok x', w') => sample_loop draw m bs T smp tk n x' w'
  | (Raise e, w') => (Raise e, w')
  end.
Proof. reflexivity. Qed.

(** A run that returns has appended one token per iteration. *)
Lemma sample_loop_extends (m : model hidden) bs T smp tk n :
  forall x (w w' : world rng) y,
    sample_loop draw m bs T smp tk n x w = (Ok y, w') -> extends_by n x y.
Proof.
  induction n as [| n IH]; intros x w w' y H.
  - simpl in H. unfold ret in H. inversion H; subst. apply extends_by_refl.
  - rewrite sample_loop_S in H.
    destruct (step draw m bs T smp tk x w) as [[x1 |] w1] eqn:E; [| discriminate].
    apply step_extends in E. apply IH in H.
    change (S n) with (1 + n). eapply extends_by_trans; eassumption.
Qed.

(** The contexts a run shows to the model, whether it returns or raises:
    the [i]-th one is the cropped form of the sequences after [i] appended
    tokens. *)
Lemma sample_loop_calls (m : model hidden) bs T smp tk n :
  forall x (w : world rng),
    exists new,
      calls (snd (sample_loop draw m bs T smp tk n x w)) = calls w ++ new /\
      length new <= n /\
      forall i ctx, nth_error new i = Some ctx ->
        exists x', extends_by i x x' /\ ctx = x_cond bs x'.
Proof.
  induction n as [| n IH]; intros x w.
  - exists []. simpl. rewrite app_nil_r. repeat split; [lia |].
    intros i ctx H. destruct i; discriminate.
  - rewrite sample_loop_S.
    pose proof (step_calls m bs T smp tk x w) as Hc.
    destruct (step draw m bs T smp tk x w) as [[x1 |] w1] eqn:E; simpl in Hc.
    + apply step_extends in E.
      destruct (IH x1 w1) as (new & Hn & Hlen & Hall).
      exists (x_cond bs x :: new). rewrite Hn, Hc, <- app_assoc. simpl.
      repeat split; [lia |].
      intros [| i] ctx Hi; simpl in Hi.
      * inversion Hi; subst. exists x. split; [apply extends_by_refl | reflexivity].
      * destruct (Hall _ _ Hi) as (x' & Hx' & ->).
        exists x'. split; [| reflexivity].
        change (S i) with (1 + i). eapply extends_by_trans; eassumption.
    + exists [x_cond bs x]. simpl. rewrite Hc.
      repeat split; [lia |].
      intros [| i] ctx Hi; simpl in Hi.
      * inversion Hi; subst. exists x. split; [apply extends_by_refl | reflexivity].
      * destruct i; discriminate.
Qed.

(** A run of at least one iteration starts by showing the cropped seed. *)
Lemma sample_loop_first_call (m : model hidden) bs T smp tk n x (w : world rng) :
  exists rest,
    calls (snd (sample_loop draw m bs T smp tk (S n) x w)) =
    calls w ++ x_cond bs x :: rest.
Proof.
  rewrite sample_loop_S.
  pose proof (step_calls m bs T smp tk x w) as Hc.
  destruct (step draw m bs T smp tk x w) as [[x1 |] w1] eqn:E; simpl in Hc.
  - destruct (sample_loop_calls m bs T smp tk n x1 w1) as (new & Hn & _).
    exists new. rewrite Hn, Hc, <- app_assoc. reflexivity.
  - exists []. simpl. assumption.
Qed.

Lemma step_greedy (m : model hidden) bs T tk x (w : world rng) :
  step draw m bs T false tk x w =
  (greedy_step m bs T tk x,
   {| calls := calls w ++ [x_cond bs x]; gen := gen w |}).
Proof.
  unfold step, greedy_step, transformed, bind, call_local_forward, lift. simpl.
  destruct (last_position _) as [l |]; simpl; [| reflexivity].
  destruct (match tk with Some k => _ | None => _ end) as [l' |]; simpl; [| reflexivity].
  destruct (topk_indices (softmax l') 1); reflexivity.
Qed.

Lemma step_sampling (m : model hidden) bs T tk x (w : world rng) :
  step draw m bs T true tk x w =
  let w1 := {| calls := calls w ++ [x_cond bs x]; gen := gen w |} in
  match transformed m bs T tk x with
  | Ok l' =>
      match multinomial draw (softmax l') w1 with
      | (Ok ix, w2) => (cat1 x (as_long ix), w2)
      | (Raise e, w2) => (Raise e, w2)
      end
  | Raise e => (Raise e, w1)
  end.
Proof.
  unfold step, transformed, bind, call_local_forward, lift. simpl.
  destruct (last_position _) as [l |]; simpl; [| reflexivity].
  destruct (match tk with Some k => _ | None => _ end) as [l' |]; simpl; reflexivity.
Qed.

End Loop.

(** ** The order [topk] sorts by *)

Lemma topk_geb_total a b : topk_geb a b = false -> topk_geb b a = true.
Proof.
  destruct a, b; simpl; try easy.
  unfold Rltb. destruct (Rlt_dec r r0), (Rlt_dec r0 r); simpl; try easy. lra.
Qed.

Lemma topk_geb_refl a : topk_geb a a = true.
Proof.
  destruct (topk_geb a a) eqn:E; [reflexivity |].
  pose proof (topk_geb_total _ _ E). congruence.
Qed.

Lemma topk_geb_trans a b c :
  topk_geb a b = true -> topk_geb b c = true -> topk_geb a c = true.
Proof.
  destruct a, b, c; simpl; try easy.
  unfold Rltb.
  destruct (Rlt_dec r r0), (Rlt_dec r0 r1), (Rlt_dec r r1); simpl; try easy. lra.
Qed.

Lemma topk_geb_Fin x y : topk_geb (Fin x) (Fin y) = negb (Rltb x y).
Proof. reflexivity. Qed.

Lemma topk_geb_Fin_true x y : topk_geb (Fin x) (Fin y) = true <-> (y <= x)%R.
Proof.
  rewrite topk_geb_Fin. unfold Rltb. destruct (Rlt_dec x y); simpl; split; intros; try easy; lra.
Qed.

Lemma topk_geb_Fin_false x y : topk_geb (Fin x) (Fin y) = false <-> (x < y)%R.
Proof.
  rewrite topk_geb_Fin. unfold Rltb. destruct (Rlt_dec x y); simpl; split; intros; try easy; lra.
Qed.

(** ** Sorting *)

Lemma insert_desc_perm p s : Permutation (insert_desc p s) (p :: s).
Proof.
  induction s as [| q s IH]; simpl; [reflexivity |].
  destruct (topk_geb _ _); [reflexivity |].
  rewrite IH. apply perm_swap.
Qed.

Lemma sort_desc_perm l : Permutation (sort_desc l) l.
Proof.
  induction l as [| p l IH]; simpl; [reflexivity |].
  rewrite insert_desc_perm. constructor. assumption.
Qed.

Lemma insert_desc_descending p s : descending s -> descending (insert_desc p s).
Proof.
  unfold descending. induction 1 as [| q s Hs IH Hq]; simpl.
  - constructor; constructor.
  - destruct (topk_geb (snd p) (snd q)) eqn:E.
    + constructor; [constructor; assumption |].
      constructor; [assumption |].
      eapply Forall_impl; [| exact Hq]. simpl. intros a Ha.
      eapply topk_geb_trans; eassumption.
    + constructor; [assumption |].
      assert (Hin : Forall (fun a => topk_geb (snd q) (snd a) = true) (p :: s)).
      { constructor; [apply topk_geb_total; assumption | assumption]. }
      rewrite Forall_forall in *. intros a Ha. apply Hin.
      eapply Permutation_in; [apply insert_desc_perm | exact Ha].
Qed.

Lemma sort_desc_descending l : descending (sort_desc l).
Proof.
  induction l as [| p l IH]; simpl; [constructor |].
  apply insert_desc_descending. assumption.
Qed.

Lemma indexed_snd {A} (l : list A) : map snd (indexed l) = l.
Proof.
  unfold indexed. generalize 0. induction l as [| a l IH]; intros n; simpl; [reflexivity |].
  rewrite IH. reflexivity.
Qed.

Lemma indexed_fst {A} (l : list A) : map fst (indexed l) = seq 0 (length l).
Proof.
  unfold indexed. generalize 0. induction l as [| a l IH]; intros n; simpl; [reflexivity |].
  rewrite IH. reflexivity.
Qed.

Lemma descending_values s :
  descending s ->
  StronglySorted (fun a b => topk_geb a b = true) (map snd s).
Proof.
  unfold descending. induction 1 as [| q s Hs IH Hq]; simpl; constructor.
  - assumption.
  - rewrite Forall_map. assumption.
Qed.

(** ** The [k]-th largest value *)

Lemma count_app p l l' : count p (l ++ l') = count p l + count p l'.
Proof. unfold count. rewrite filter_app, length_app. reflexivity. Qed.

Lemma count_le_length p l : count p l <= length l.
Proof. unfold count. apply filter_length_le. Qed.

Lemma count_all p l : Forall (fun s => p s = true) l -> count p l = length l.
Proof.
  unfold count. induction 1 as [| a l Ha _ IH]; simpl; [reflexivity |].
  rewrite Ha. simpl. rewrite IH. reflexivity.
Qed.

Lemma count_none p l : Forall (fun s => p s = false) l -> count p l = 0.
Proof.
  unfold count. induction 1 as [| a l Ha _ IH]; simpl; [reflexivity |].
  rewrite Ha. assumption.
Qed.

Lemma count_perm p l l' : Permutation l l' -> count p l = count p l'.
Proof.
  unfold count. induction 1; simpl.
  - reflexivity.
  - destruct (p x); simpl; congruence.
  - destruct (p x), (p y); reflexivity.
  - congruence.
Qed.

(** Splitting a list at its [k]-th entry. *)
Lemma firstn_split_last {A} (k : nat) (l : list A) :
  1 <= k <= length l ->
  exists a th b, l = a ++ th :: b /\ length a = k - 1 /\ firstn k l = a ++ [th].
Proof.
  revert l. induction k as [| k IH]; intros l Hk; [lia |].
  destruct l as [| x l]; simpl in Hk; [lia |].
  destruct k as [| k'].
  - exists [], x, l. repeat split.
  - destruct (IH l) as (a & th & b & Hl & Ha & Hf); [lia |].
    exists (x :: a), th, b. simpl in *. repeat split.
    + rewrite Hl at 1. reflexivity.
    + lia.
    + rewrite Hf. reflexivity.
Qed.

Lemma sorted_split a th b :
  StronglySorted (fun x y => topk_geb x y = true) (a ++ th :: b) ->
  Forall (fun s => topk_geb s th = true) a /\
  Forall (fun s => topk_geb th s = true) b.
Proof.
  induction a as [| x a IH]; simpl; intros H; inversion H; subst.
  - split; [constructor | assumption].
  - destruct (IH H2) as [Ha Hb]. split; [| assumption].
    constructor; [| assumption].
    rewrite Forall_forall in H3. apply H3. apply in_elt.
Qed.

Lemma topk_threshold row k :
  (1 <= k <= Z.of_nat (length row))%Z ->
  exists v ix th rest,
    topk row k = Ok (v, ix) /\ rev v = th :: rest /\
    kth_largest (Z.to_nat k) th row.
Proof.
  intros Hk. unfold topk.
  destruct (Z.ltb_spec k 0); [lia |].
  destruct (Z.ltb_spec (Z.of_nat (length row)) k); [lia |]. simpl.
  destruct (order_ok lib_ok row (k := Z.to_nat k)) as (s & Hperm & Hdesc & ->); [lia |].
  assert (Hp : Permutation (map snd s) row).
  { rewrite <- (indexed_snd row). apply Permutation_map. assumption. }
  assert (Hs : StronglySorted (fun x y => topk_geb x y = true) (map snd s)).
  { apply descending_values. assumption. }
  destruct (@firstn_split_last _ (Z.to_nat k) (map snd s)) as (a & th & b & Hl & Ha & Hf).
  { rewrite (Permutation_length Hp). lia. }
  exists (map snd (firstn (Z.to_nat k) s)), (map fst (firstn (Z.to_nat k) s)), th, (rev a).
  split; [reflexivity |].
  rewrite <- firstn_map, Hf, rev_app_distr. split; [reflexivity |].
  rewrite Hl in Hs. apply sorted_split in Hs. destruct Hs as [Hsa Hsb].
  unfold kth_largest. rewrite <- !(count_perm _ Hp), Hl.
  split; [eapply Permutation_in; [exact Hp | rewrite Hl; apply in_elt] |].
  rewrite !count_app. change (th :: b) with ([th] ++ b). rewrite !count_app.
  split.
  - rewrite (@count_none _ b), (@count_none _ [th]).
    + pose proof (count_le_length (fun s => negb (topk_geb th s)) a). lia.
    + constructor; [| constructor]. rewrite topk_geb_refl. reflexivity.
    + eapply Forall_impl; [| exact Hsb]. simpl. intros x Hx. rewrite Hx. reflexivity.
  - rewrite (@count_all _ a) by assumption.
    rewrite (@count_all _ [th]).
    + simpl. lia.
    + constructor; [apply topk_geb_refl | constructor].
Qed.

(** ** [top_k_logits], row by row *)

Lemma mask_rows_spec (P : list score -> score -> Prop) logits ths :
  Forall2 P logits ths ->
  Forall2 (fun row o => exists th, P row th /\ o = mask_below row th)
          logits (mask_rows logits ths).
Proof.
  induction 1 as [| row th logits ths HP _ IH]; simpl; constructor.
  - exists th. split; [assumption | reflexivity].
  - assumption.
Qed.

(** With [k] in range for every row, [top_k_logits] returns, and each row
    has been masked against its threshold. *)
Lemma top_k_logits_rows logits k :
  Forall (fun row => (1 <= k <= Z.of_nat (length row))%Z) logits ->
  exists out,
    top_k_logits logits k = Ok out /\
    Forall2 (fun row o => exists th,
                 threshold_of k row th /\ o = mask_below row th)
            logits out.
Proof.
  intros Hk.
  assert (H : exists vi ths,
             mapM_result (fun row => topk row k) logits = Ok vi /\
             last_col (map fst vi) = Ok ths /\
             Forall2 (threshold_of k) logits ths).
  { induction Hk as [| row logits Hrow _ (vi & ths & Hvi & Hths & HF)].
    - exists [], []. repeat split. constructor.
    - destruct (topk_threshold row Hrow) as (v & ix & th & rest & Ht & Hrev & Hkth).
      exists ((v, ix) :: vi), (th :: ths). simpl. rewrite Ht. simpl. rewrite Hvi. simpl.
      unfold last_col in *. simpl. rewrite Hrev. simpl. rewrite Hths. simpl.
      repeat split. constructor; [| assumption].
      exists v, ix, rest. split; [assumption |]. split; assumption. }
  destruct H as (vi & ths & Hvi & Hths & HF).
  exists (mask_rows logits ths). unfold top_k_logits, topk2.
  rewrite Hvi. simpl. rewrite Hths. simpl.
  split; [reflexivity |].
  apply (@mask_rows_spec (threshold_of k)). assumption.
Qed.

Lemma mask_below_length row th : length (mask_below row th) = length row.
Proof. apply length_map. Qed.

(** *** Rows of real numbers *)

Lemma count_map_Fin p rs : count p (map Fin rs) = Rcount (fun r => p (Fin r)) rs.
Proof.
  unfold count, Rcount. induction rs as [| r rs IH]; simpl; [reflexivity |].
  destruct (p (Fin r)); simpl; congruence.
Qed.

Lemma Rcount_ge_split v rs :
  Rcount (fun r => negb (Rltb r v)) rs =
  Rcount (fun r => Rltb v r) rs + Rcount (fun r => Reqb r v) rs.
Proof.
  unfold Rcount. induction rs as [| r rs IH]; simpl; [reflexivity |].
  unfold Rltb, Reqb in *.
  destruct (Rlt_dec r v), (Rlt_dec v r), (Req_dec_T r v); simpl; try lra; lia.
Qed.

Lemma mask_below_Fin rs v :
  mask_below (map Fin rs) (Fin v) =
  map (fun r => if Rltb r v then NegInf else Fin r) rs.
Proof. unfold mask_below. rewrite map_map. reflexivity. Qed.

Lemma count_fin_mask rs v :
  count is_finb (mask_below (map Fin rs) (Fin v)) =
  Rcount (fun r => negb (Rltb r v)) rs.
Proof.
  rewrite mask_below_Fin. unfold count, Rcount.
  induction rs as [| r rs IH]; simpl; [reflexivity |].
  destruct (Rltb r v); simpl; congruence.
Qed.

Lemma Rcount_ext p q rs :
  (forall r, p r = q r) -> Rcount p rs = Rcount q rs.
Proof.
  intros H. unfold Rcount. induction rs as [| r rs IH]; simpl; [reflexivity |].
  rewrite H. destruct (q r); simpl; congruence.
Qed.

Lemma Forall2_map_left {A B C} (f : A -> B) (P : B -> C -> Prop) l l' :
  Forall2 P (map f l) l' -> Forall2 (fun a c => P (f a) c) l l'.
Proof.
  revert l'. induction l as [| a l IH]; intros l' H; inversion H; subst; constructor.
  - assumption.
  - apply IH. assumption.
Qed.

Lemma kth_largest_Fin k th rs :
  kth_largest k th (map Fin rs) ->
  exists vk, th = Fin vk /\ kth_largest_real k vk rs.
Proof.
  intros (Hin & Hgt & Hge).
  apply in_map_iff in Hin. destruct Hin as (vk & <- & Hin).
  exists vk. split; [reflexivity |].
  rewrite !count_map_Fin in *.
  split; [assumption |]. split; [| exact Hge].
  erewrite Rcount_ext; [exact Hgt |].
  intros r. simpl. rewrite negb_involutive. reflexivity.
Qed.

Lemma mask_below_Fin_pointwise rs vk :
  Forall2 (fun r s => ((r < vk)%R -> s = NegInf) /\ ((vk <= r)%R -> s = Fin r))
          rs (mask_below (map Fin rs) (Fin vk)).
Proof.
  rewrite mask_below_Fin.
  induction rs as [| r rs IH]; simpl; constructor; [| assumption].
  unfold Rltb. destruct (Rlt_dec r vk); split; intros; try reflexivity; lra.
Qed.

(** ** A greatest entry *)

Lemma seq_split_index n a i b : seq 0 n = a ++ i :: b -> i = length a.
Proof.
  intros H.
  assert (Hlen : length a < n).
  { apply (f_equal (@length nat)) in H. rewrite length_seq, length_app in H. simpl in H. lia. }
  pose proof (@seq_nth n 0 (length a) 0 Hlen) as Hn. simpl in Hn.
  rewrite H, nth_middle in Hn. assumption.
Qed.

(** [topk row 1] on a non-empty row: a position that holds a greatest
    entry, and that entry. *)
Lemma topk_one_split row :
  row <> [] ->
  exists v i a b,
    topk row 1 = Ok ([v], [i]) /\
    row = a ++ v :: b /\ length a = i /\
    Forall (fun s => topk_geb v s = true) a /\
    Forall (fun s => topk_geb v s = true) b.
Proof.
  intros Hne.
  assert (Hlen : 1 <= length row) by (destruct row; [congruence | simpl; lia]).
  destruct (order_ok lib_ok row (k := 1) Hlen) as (s & Hperm & Hdesc & Hs).
  destruct s as [| [i v] rest].
  { apply Permutation_length in Hperm. rewrite indexed_length in Hperm.
    simpl in Hperm. lia. }
  assert (Hin : In (i, v) (indexed row)).
  { eapply Permutation_in; [exact Hperm | left; reflexivity]. }
  apply in_split in Hin. destruct Hin as (l1 & l2 & Hl).
  assert (Hmax : forall q, In q (indexed row) -> topk_geb v (snd q) = true).
  { intros q Hq. apply (Permutation_in _ (Permutation_sym Hperm)) in Hq.
    destruct Hq as [<- | Hq]; [apply topk_geb_refl |].
    unfold descending in Hdesc. inversion Hdesc as [| ? ? _ Hall]; subst.
    rewrite Forall_forall in Hall. apply (Hall q Hq). }
  exists v, i, (map snd l1), (map snd l2). split.
  - unfold topk. destruct (Z.ltb_spec 1 0); [lia |].
    destruct (Z.ltb_spec (Z.of_nat (length row)) 1); [lia |].
    simpl. change (Pos.to_nat 1) with 1. rewrite Hs. reflexivity.
  - repeat split.
    + rewrite <- (indexed_snd row) at 1. rewrite Hl, map_app. reflexivity.
    + pose proof (indexed_fst row) as Hf. rewrite Hl, map_app in Hf. simpl in Hf.
      symmetry in Hf. apply seq_split_index in Hf. rewrite length_map in *. congruence.
    + rewrite Forall_map, Forall_forall. intros q Hq. apply Hmax.
      rewrite Hl. apply in_or_app. left. assumption.
    + rewrite Forall_map, Forall_forall. intros q Hq. apply Hmax.
      rewrite Hl. apply in_or_app. right. right. assumption.
Qed.

Lemma topk_one row :
  row <> [] ->
  exists v i, topk row 1 = Ok ([v], [i]) /\ nth_error row i = Some v.
Proof.
  intros Hne. destruct (topk_one_split Hne) as (v & i & a & b & Ht & -> & <- & _).
  exists v, (length a). split; [assumption |].
  rewrite nth_error_app2 by lia. rewrite Nat.sub_diag. reflexivity.
Qed.

(** An entry that exceeds every other one is the one selected. *)
Lemma topk_one_strict_max a v b :
  Forall (fun s => topk_geb s v = false) a ->
  Forall (fun s => topk_geb s v = false) b ->
  topk (a ++ v :: b) 1 = Ok ([v], [length a]).
Proof.
  intros Ha Hb.
  assert (Hne : a ++ v :: b <> []) by (destruct a; discriminate).
  destruct (topk_one_split Hne) as (v' & i & a' & b' & Ht & Hr & Hi & Hga & Hgb).
  assert (Hv' : nth_error (a ++ v :: b) i = Some v').
  { rewrite Hr, nth_error_app2 by lia. replace (i - length a') with 0 by lia. reflexivity. }
  assert (Hmax : topk_geb v' v = true).
  { assert (Hin : In v (a' ++ v' :: b')) by (rewrite <- Hr; apply in_elt).
    rewrite Forall_forall in Hga, Hgb.
    apply in_app_or in Hin. destruct Hin as [Hin | [<- | Hin]];
      [apply Hga; assumption | apply topk_geb_refl | apply Hgb; assumption]. }
  rewrite Forall_forall in Ha, Hb.
  destruct (lt_eq_lt_dec i (length a)) as [[Hlt | Heq] | Hgt].
  - rewrite nth_error_app1 in Hv' by assumption.
    apply nth_error_In in Hv'. rewrite (Ha _ Hv') in Hmax. discriminate.
  - subst i. rewrite Heq in *. rewrite nth_error_app2 in Hv' by lia.
    rewrite Nat.sub_diag in Hv'. simpl in Hv'. inversion Hv'; subst. assumption.
  - rewrite nth_error_app2 in Hv' by lia.
    destruct (i - length a) as [| d] eqn:Ed; [lia |]. simpl in Hv'.
    apply nth_error_In in Hv'. rewrite (Hb _ Hv') in Hmax. discriminate.
Qed.

Lemma nonempty_length {A} (l : list A) : l <> [] <-> 1 <= length l.
Proof. destruct l; simpl; split; intros; try congruence; lia. Qed.

(** A greatest entry of a row of real numbers. *)
Lemma greatest_Fin ps a v b :
  map Fin ps = a ++ v :: b ->
  Forall (fun s => topk_geb v s = true) a ->
  Forall (fun s => topk_geb v s = true) b ->
  largest_at ps (length a) /\ v = Fin (nth (length a) ps 0%R).
Proof.
  intros Hr Hlt Hge.
  apply map_eq_app in Hr. destruct Hr as (pa & pr & -> & <- & Hr).
  apply map_eq_cons in Hr. destruct Hr as (pv & pb & -> & <- & <-).
  rewrite length_map.
  rewrite Forall_map, Forall_forall in Hlt, Hge.
  assert (Hpv : nth (length pa) (pa ++ pv :: pb) 0%R = pv) by apply nth_middle.
  unfold largest_at. rewrite Hpv. repeat split.
  - rewrite length_app. simpl. lia.
  - intros j' Hj'. destruct (Nat.lt_ge_cases j' (length pa)) as [Hlo | Hhi].
    + rewrite app_nth1 by assumption.
      apply topk_geb_Fin_true. apply Hlt. apply nth_In. assumption.
    + rewrite app_nth2 by assumption.
      destruct (j' - length pa) as [| d] eqn:Ed; simpl; [lra |].
      apply topk_geb_Fin_true. apply Hge. apply nth_In.
      rewrite length_app in Hj'. simpl in Hj'. lia.
Qed.

(** ** Softmax *)

Lemma softmax_row_length row : length (softmax_row row) = length row.
Proof.
  unfold softmax_row. destruct (softmax_defined row); rewrite length_map;
    [apply indexed_length | reflexivity].
Qed.

(** The entries of a row with a proper softmax. *)
Lemma softmax_defined_entries row :
  softmax_defined row = true ->
  Forall (fun s => s = NegInf \/ exists r, s = Fin r) row /\
  existsb is_finb row = true.
Proof.
  unfold softmax_defined. intros H. apply andb_prop in H. destruct H as [Hall Hex].
  split; [| assumption].
  rewrite forallb_forall in Hall. rewrite Forall_forall. intros s Hs.
  specialize (Hall s Hs). destruct s; try discriminate; eauto.
Qed.

Lemma indexed_nth_error {A} (l : list A) j :
  nth_error (indexed l) j = option_map (fun a => (j, a)) (nth_error l j).
Proof.
  unfold indexed.
  assert (H : forall a j,
             nth_error (combine (seq a (length l)) l) j =
             option_map (fun x => (a + j, x)) (nth_error l j)).
  { induction l as [| x l IH]; intros a j'; simpl.
    - destruct j'; reflexivity.
    - destruct j' as [| j']; simpl.
      + rewrite Nat.add_0_r. reflexivity.
      + rewrite IH. replace (S a + j') with (a + S j') by lia. reflexivity. }
  apply (H 0 j).
Qed.

(** The probabilities of a row with a proper softmax, position by
    position. *)
Lemma softmax_row_nth row j s :
  softmax_defined row = true -> nth_error row j = Some s ->
  nth_error (softmax_row row) j =
  Some (match s with
        | Fin _ => Fin (softmax_prob lib row j)
        | _ => Fin 0
        end).
Proof.
  intros Hd Hs. unfold softmax_row. rewrite Hd, nth_error_map, indexed_nth_error, Hs.
  reflexivity.
Qed.

Lemma softmax_row_reals row :
  softmax_defined row = true ->
  exists ps, softmax_row row = map Fin ps /\ length ps = length row.
Proof.
  intros Hd. unfold softmax_row. rewrite Hd.
  exists (map (fun e => match snd e with
                        | Fin _ => softmax_prob lib row (fst e)
                        | _ => 0%R
                        end) (indexed row)).
  split.
  - rewrite map_map. apply map_ext. intros [i s]. destruct s; reflexivity.
  - rewrite length_map. apply indexed_length.
Qed.

Lemma softmax_row_undefined row :
  softmax_defined row = false -> softmax_row row = map (fun _ => NaN) row.
Proof. intros H. unfold softmax_row. rewrite H. reflexivity. Qed.

(** A row that is entirely [-inf], or empty, cannot be drawn from. *)
Lemma drawable_all_neginf row :
  Forall (fun s => s = NegInf) row -> drawable (softmax_row row) = None.
Proof.
  intros H. assert (Hd : softmax_defined row = false).
  { unfold softmax_defined. replace (existsb is_finb row) with false; [apply andb_false_r |].
    induction H as [| s row -> _ IH]; simpl; [reflexivity | assumption]. }
  rewrite (softmax_row_undefined _ Hd).
  destruct row as [| s row]; simpl.
  - unfold drawable. simpl. rewrite Rltb_false by lra. reflexivity.
  - reflexivity.
Qed.

(** ** Batches, row by row *)

Lemma topk_indices_rows t k :
  topk_indices t k =
  mapM_result (fun row => rbind (topk row k) (fun vix => Ok (snd vix))) t.
Proof.
  unfold topk_indices, topk2. induction t as [| row t IH]; simpl; [reflexivity |].
  destruct (topk row k) as [[v ix] |]; simpl; [| reflexivity].
  destruct (mapM_result (fun row => topk row k) t) as [vi |]; simpl in *.
  - destruct (mapM_result _ t) as [ixs |]; simpl in *; inversion IH; subst; reflexivity.
  - destruct (mapM_result _ t) as [ixs |]; simpl in *; inversion IH; subst; reflexivity.
Qed.

Lemma mapM_result_map {A B C} (f : B -> result C) (g : A -> B) l :
  mapM_result f (map g l) = mapM_result (fun a => f (g a)) l.
Proof.
  induction l as [| a l IH]; simpl; [reflexivity |]. rewrite IH. reflexivity.
Qed.

(** ** The probability that is selected *)

Lemma score_row_defined row : score_row row -> softmax_defined row = true.
Proof.
  intros [Hall Hex]. unfold softmax_defined. apply andb_true_intro. split.
  - rewrite forallb_forall. rewrite Forall_forall in Hall. intros s Hs.
    destruct (Hall s Hs) as [-> | Hf]; [reflexivity |].
    destruct s; try contradiction. reflexivity.
  - rewrite existsb_exists. rewrite Exists_exists in Hex.
    destruct Hex as (s & Hs & Hf). exists s. split; [assumption |].
    destruct s; try contradiction. reflexivity.
Qed.

(** In a row with a proper softmax a greatest entry is finite and has a
    positive probability. *)
Lemma greatest_positive row :
  softmax_defined row = true ->
  exists j0 r p,
    nth_error row j0 = Some (Fin r) /\
    nth_error (softmax_row row) j0 = Some (Fin p) /\ (0 < p)%R.
Proof.
  intros Hd. destruct (softmax_defined_entries _ Hd) as [Hall Hex].
  assert (Hne : row <> []) by (intros ->; discriminate).
  destruct (topk_one_split Hne) as (v & i & a & b & _ & Hr & Ha & Hga & Hgb).
  assert (Hmax : Forall (fun s => topk_geb v s = true) row).
  { rewrite Hr. apply Forall_app. split; [assumption |].
    constructor; [apply topk_geb_refl | assumption]. }
  assert (Hv : exists r, v = Fin r).
  { apply existsb_exists in Hex. destruct Hex as (f & Hf & Hfin).
    rewrite Forall_forall in Hall, Hmax.
    specialize (Hmax f Hf).
    destruct (Hall v) as [-> | Hv]; [rewrite Hr; apply in_elt | | assumption].
    destruct f; discriminate. }
  destruct Hv as [r ->].
  assert (Hi : nth_error row i = Some (Fin r)).
  { rewrite Hr, nth_error_app2 by lia. replace (i - length a) with 0 by lia. reflexivity. }
  exists i, r, (softmax_prob lib row i). split; [assumption |].
  split; [apply (@softmax_row_nth row i _ Hd Hi) |].
  eapply (prob_pos lib_ok); eassumption.
Qed.

(** What [topk] selects with [k = 1] on the probabilities of a row with a
    proper softmax: a position of largest probability, which is positive,
    and so not the position of an entry at [-inf]. *)
Lemma topk_one_softmax row v ix :
  softmax_defined row = true ->
  topk (softmax_row row) 1 = Ok (v, ix) ->
  exists j ps r,
    ix = [j] /\ softmax_row row = map Fin ps /\ largest_at ps j /\
    (0 < nth j ps 0)%R /\ nth_error row j = Some (Fin r).
Proof.
  intros Hd Ht.
  destruct (softmax_row_reals _ Hd) as (ps & Hps & Hlen).
  destruct (greatest_positive _ Hd) as (j0 & r0 & p0 & Hj0 & Hp0 & Hpos).
  assert (Hne : softmax_row row <> []).
  { intros E. rewrite E in Hp0. destruct j0; discriminate. }
  destruct (topk_one_split Hne) as (v' & j & a & b & Ht' & Hr & Ha & Hga & Hgb).
  rewrite Ht in Ht'. inversion Ht'; subst v ix. clear Ht'.
  rewrite Hps in Hr.
  destruct (@greatest_Fin ps a v' b Hr Hga Hgb) as [Hlargest Hv]. rewrite Ha in *.
  assert (Hj : j < length row) by (destruct Hlargest; lia).
  assert (Hp0' : nth j0 ps 0%R = p0).
  { rewrite Hps in Hp0. rewrite nth_error_map in Hp0.
    destruct (nth_error ps j0) as [q |] eqn:E; [| discriminate].
    simpl in Hp0. inversion Hp0; subst. apply nth_error_nth. assumption. }
  assert (Hj0' : j0 < length ps).
  { rewrite Hlen. apply nth_error_Some. congruence. }
  assert (Hge : (p0 <= nth j ps 0)%R).
  { rewrite <- Hp0'. apply Hlargest. assumption. }
  destruct (nth_error row j) as [s |] eqn:Es.
  2:{ apply nth_error_None in Es. lia. }
  pose proof (@softmax_row_nth row j _ Hd Es) as Hsj.
  rewrite Hps, nth_error_map in Hsj.
  destruct (nth_error ps j) as [q |] eqn:Eq; [| discriminate].
  simpl in Hsj. apply (nth_error_nth _ _ 0%R) in Eq.
  exists j, ps. destruct s as [| | r |]; inversion Hsj; subst; try lra.
  exists r. repeat split; try assumption; try apply Hlargest. lra.
Qed.

(** A row with a proper softmax can be drawn from. *)
Lemma Rsum_nonneg ws : Forall (fun p => (0 <= p)%R) ws -> (0 <= Rsum ws)%R.
Proof.
  induction 1 as [| p ws Hp _ IH]; simpl; lra.
Qed.

Lemma Rsum_pos ws j :
  Forall (fun p => (0 <= p)%R) ws -> (0 < nth j ws 0)%R -> (0 < Rsum ws)%R.
Proof.
  intros H. revert j. induction H as [| p ws Hp Hws IH]; intros j Hj.
  - destruct j; simpl in Hj; lra.
  - destruct j as [| j]; simpl in *.
    + pose proof (Rsum_nonneg Hws). lra.
    + specialize (IH j Hj). lra.
Qed.

Lemma weights_Fin ps :
  Forall (fun p => (0 <= p)%R) ps -> weights (map Fin ps) = Some ps.
Proof.
  induction 1 as [| p ps Hp _ IH]; simpl; [reflexivity |].
  rewrite Rleb_true by assumption. rewrite IH. reflexivity.
Qed.

Lemma softmax_row_drawable row :
  softmax_defined row = true ->
  exists ws, drawable (softmax_row row) = Some ws.
Proof.
  intros Hd.
  destruct (softmax_row_reals _ Hd) as (ps & Hps & Hlen).
  destruct (greatest_positive _ Hd) as (j0 & r0 & p0 & _ & Hp0 & Hpos).
  assert (Hnn : Forall (fun p => (0 <= p)%R) ps).
  { rewrite Forall_forall. intros p Hp.
    apply In_nth_error in Hp. destruct Hp as [j Hj].
    assert (Hjl : j < length row).
    { rewrite <- Hlen. apply nth_error_Some. congruence. }
    destruct (nth_error row j) as [s |] eqn:Es.
    2:{ apply nth_error_None in Es. lia. }
    pose proof (@softmax_row_nth row j _ Hd Es) as Hsj.
    rewrite Hps, nth_error_map, Hj in Hsj. simpl in Hsj.
    pose proof (prob_nonneg lib_ok row j Hd).
    destruct s; inversion Hsj; subst; lra. }
  exists ps. rewrite Hps. unfold drawable. rewrite (weights_Fin Hnn).
  rewrite Rltb_true; [reflexivity |].
  apply (@Rsum_pos ps j0 Hnn).
  rewrite Hps, nth_error_map in Hp0.
  destruct (nth_error ps j0) as [q |] eqn:E; [| discriminate].
  simpl in Hp0. inversion Hp0; subst. rewrite (nth_error_nth _ _ 0%R E). assumption.
Qed.

Lemma all_drawable_softmax logits :
  Forall (fun row => softmax_defined row = true) logits ->
  exists wss, all_drawable (softmax logits) = Some wss.
Proof.
  unfold softmax. induction 1 as [| row logits Hrow _ (wss & Hw)]; simpl.
  - eauto.
  - destruct (softmax_row_drawable _ Hrow) as (ws & ->). rewrite Hw. eauto.
Qed.

(** ** Valid configurations *)

Lemma last_position_ok (P : list score -> Prop) o :
  Forall (fun positions => exists init v, positions = init ++ [v] /\ P v) o ->
  exists l, last_position o = Ok l /\ length l = length o /\ Forall P l.
Proof.
  unfold last_position.
  induction 1 as [| positions o (init & v & -> & Hv) _ (l & Hl & Hlen & HP)].
  - exists []. repeat split. constructor.
  - exists (v :: l). simpl. rewrite rev_app_distr. simpl. rewrite Hl. simpl.
    repeat split; [lia | constructor; assumption].
Qed.

Lemma score_div_Fin a T : T <> 0%R -> score_div (Fin a) T = true_divide lib a T.
Proof. intros H. simpl. destruct (Req_dec_T T 0); [contradiction | reflexivity]. Qed.

Lemma score_div_Fin_zero_pos a : (0 < a)%R -> score_div (Fin a) 0 = PosInf.
Proof.
  intros H. simpl. destruct (Req_dec_T 0 0); [| lra].
  destruct (Rlt_dec 0 a); [reflexivity | lra].
Qed.

Lemma score_div_NegInf T : (0 <= T)%R -> score_div NegInf T = NegInf.
Proof. intros H. simpl. destruct (Rlt_dec T 0); [lra | reflexivity]. Qed.

Lemma softmax_defined_mask row th :
  Forall is_fin row -> In th row -> softmax_defined (mask_below row th) = true.
Proof.
  intros H Hin. unfold softmax_defined. apply andb_true_intro. split.
  - rewrite forallb_forall. intros s Hs. unfold mask_below in Hs.
    apply in_map_iff in Hs. destruct Hs as (s' & <- & Hs').
    rewrite Forall_forall in H. specialize (H s' Hs').
    destruct (score_ltb s' th); [reflexivity |].
    destruct s'; try contradiction. reflexivity.
  - rewrite existsb_exists. exists th. split.
    + unfold mask_below. apply in_map_iff. exists th. split; [| assumption].
      replace (score_ltb th th) with false; [reflexivity |].
      destruct th; simpl; try reflexivity. symmetry. apply Rltb_false. lra.
    + rewrite Forall_forall in H. specialize (H th Hin).
      destruct th; try contradiction. reflexivity.
Qed.

Lemma softmax_defined_fin row :
  Forall is_fin row -> row <> [] -> softmax_defined row = true.
Proof.
  intros H Hne. unfold softmax_defined. apply andb_true_intro. split.
  - rewrite forallb_forall. rewrite Forall_forall in H. intros s Hs.
    specialize (H s Hs). destruct s; try contradiction. reflexivity.
  - destruct row as [| s row]; [congruence |]. inversion H; subst.
    destruct s; try contradiction. reflexivity.
Qed.


(** Finite scores, truncated or not, have a proper softmax. *)
Lemma transformed_defined V tk logits :
  1 <= V -> valid_top_k V tk ->
  Forall (fun row => length row = V /\ Forall is_fin row) logits ->
  exists l',
    match tk with Some k => top_k_logits logits k | None => Ok logits end = Ok l' /\
    length l' = length logits /\
    Forall (fun row => softmax_defined row = true /\ length row = V) l'.
Proof.
  intros HV Htk Hl. destruct tk as [k |]; simpl in Htk.
  - destruct (@top_k_logits_rows logits k) as (out & Hout & HF).
    { eapply Forall_impl; [| exact Hl]. simpl. intros row [Hlen _]. lia. }
    exists out. split; [assumption |].
    split; [symmetry; eapply Forall2_length; eassumption |].
    clear Hout. induction HF as [| row o logits out (th & Hth & ->) _ IH]; constructor.
    + inversion Hl as [| ? ? [Hlen Hfin] ?]; subst.
      destruct Hth as (v & ix & rest & _ & _ & (Hin & _)).
      split; [apply softmax_defined_mask; assumption | apply mask_below_length].
    + apply IH. inversion Hl; assumption.
  - exists logits. repeat split.
    eapply Forall_impl; [| exact Hl]. simpl. intros row [Hlen Hfin].
    split; [| assumption]. apply softmax_defined_fin; [assumption |].
    destruct row; [simpl in Hlen; lia | discriminate].
Qed.

Lemma topk2_one_total probs :
  Forall (fun row => row <> []) probs ->
  exists v ix, topk2 probs 1 = Ok (v, ix).
Proof.
  intros H. unfold topk2.
  destruct (@mapM_result_total _ _ (fun row => topk row 1) probs) as (vi & Hvi).
  { eapply Forall_impl; [| exact H]. simpl. intros row Hne.
    destruct (topk_one Hne) as (v & i & Ht & _). eauto. }
  rewrite Hvi. simpl. eauto.
Qed.

(** ** Calls of [top_k_logits] that return *)

Lemma topk_geb_not_ltb s th : topk_geb s th = true -> score_ltb s th = false.
Proof. destruct s, th; simpl; try easy; destruct (Rltb _ _); easy. Qed.

Lemma count_full p l : count p l = length l -> Forall (fun s => p s = true) l.
Proof.
  unfold count. induction l as [| s l IH]; simpl; intros H; [constructor |].
  pose proof (filter_length_le p l).
  destruct (p s) eqn:E; simpl in H; [| lia].
  constructor; [assumption | apply IH; lia].
Qed.

Lemma mask_below_id row th :
  Forall (fun s => topk_geb s th = true) row -> mask_below row th = row.
Proof.
  unfold mask_below. induction 1 as [| s row Hs _ IH]; simpl; [reflexivity |].
  rewrite (topk_geb_not_ltb _ _ Hs), IH. reflexivity.
Qed.

Lemma Forall2_eq_same {A} (l l' : list A) : Forall2 eq l l' -> l = l'.
Proof. induction 1; congruence. Qed.

(** A call that returns had [k] between 1 and the length of every row. *)
Lemma top_k_logits_ok_inv logits k out :
  top_k_logits logits k = Ok out ->
  Forall (fun row => (1 <= k <= Z.of_nat (length row))%Z) logits.
Proof.
  unfold top_k_logits, topk2. intros H.
  destruct (mapM_result (fun row => topk row k) logits) as [vi |] eqn:Evi;
    simpl in H; [| discriminate].
  destruct (last_col (map fst vi)) as [ths |] eqn:Eths; simpl in H; [| discriminate].
  apply mapM_result_ok in Evi. unfold last_col in Eths. apply mapM_result_ok in Eths.
  clear H. revert ths Eths.
  induction Evi as [| row [v ix] logits vi Hrow _ IH]; intros ths Eths; [constructor |].
  simpl in Eths. inversion Eths as [| ? th ? ths' Hth Hths]; subst.
  constructor; [| eapply IH; eassumption].
  apply topk_lengths in Hrow. destruct Hrow as (Hv & _ & Hk).
  simpl in Hth. destruct v as [| s v]; [discriminate |]. simpl in Hv. lia.
Qed.

(** A call that returns keeps the shape. *)
Lemma top_k_logits_cols V logits k out :
  cols V logits -> top_k_logits logits k = Ok out -> cols V out.
Proof.
  intros Hc H. pose proof (top_k_logits_ok_inv _ _ H) as Hk.
  destruct (top_k_logits_rows Hk) as (out' & Hout & HF).
  rewrite H in Hout. inversion Hout; subst out'. clear H Hout Hk.
  unfold cols in *.
  induction HF as [| row o logits out (th & _ & ->) _ IH]; constructor.
  - rewrite mask_below_length. inversion Hc; assumption.
  - apply IH. inversion Hc; assumption.
Qed.

(** ** Selection without sampling, row by row *)

Lemma Forall2_chain {A B C} (P : A -> B -> Prop) (Q : B -> C -> Prop) l1 l2 l3 :
  Forall2 P l1 l2 -> Forall2 Q l2 l3 ->
  Forall2 (fun a c => exists b, P a b /\ Q b c) l1 l3.
Proof.
  intros H. revert l3. induction H as [| a b l1 l2 Hab _ IH]; intros l3 H3;
    inversion H3; subst; constructor; eauto.
Qed.

Lemma Forall2_map_right {A B C} (f : B -> C) (P : A -> C -> Prop) l l' :
  Forall2 (fun a b => P a (f b)) l l' -> Forall2 P l (map f l').
Proof. induction 1; simpl; constructor; assumption. Qed.

Lemma column_length js : length (as_long (column js)) = length js.
Proof. unfold as_long, column. rewrite !length_map. reflexivity. Qed.

(** On rows with a proper softmax the selection returns, in every row, a
    position of largest probability; that probability is positive and the
    entry at the position is finite. *)
Lemma topk_indices_softmax logits :
  Forall (fun row => softmax_defined row = true) logits ->
  exists js,
    topk_indices (softmax logits) 1 = Ok (column js) /\
    Forall2 (fun row j => exists ps r,
               softmax_row row = map Fin ps /\ largest_at ps j /\
               (0 < nth j ps 0)%R /\ nth_error row j = Some (Fin r))
            logits js.
Proof.
  rewrite topk_indices_rows. unfold softmax. rewrite mapM_result_map.
  induction 1 as [| row logits Hd _ (js & Hjs & HF)].
  - exists []. split; [reflexivity | constructor].
  - assert (Hne : softmax_row row <> []).
    { apply nonempty_length. rewrite softmax_row_length. apply nonempty_length.
      intros ->. discriminate. }
    destruct (topk_one Hne) as (v & i & Ht & _).
    destruct (topk_one_softmax _ Hd Ht) as (j & ps & r & Hi & Hps & Hl & Hpos & Hj).
    inversion Hi; subst i.
    exists (j :: js). simpl. rewrite Ht. simpl. rewrite Hjs. simpl.
    split; [reflexivity |]. constructor; [| assumption].
    exists ps, r. auto.
Qed.

(** After truncation of rows of real scores, the selection stays among
    the entries that are not below the [k]-th largest. *)
Lemma masked_selection (rss : list (list R)) (k : Z) l' :
  top_k_logits (map (map Fin) rss) k = Ok l' ->
  exists js,
    topk_indices (softmax l') 1 = Ok (column js) /\
    Forall2 (fun rs j => exists vk,
               j < length rs /\ kth_largest_real (Z.to_nat k) vk rs /\
               (vk <= nth j rs 0)%R) rss js.
Proof.
  intros Htop.
  pose proof (top_k_logits_ok_inv _ _ Htop) as Hk.
  destruct (top_k_logits_rows Hk) as (out & Hout & HF).
  rewrite Htop in Hout. inversion Hout; subst out. clear Hout.
  apply Forall2_map_left in HF.
  assert (HF' : Forall2 (fun rs o => exists vk,
                   kth_largest_real (Z.to_nat k) vk rs /\
                   o = mask_below (map Fin rs) (Fin vk)) rss l').
  { eapply Forall2_impl; [| exact HF]. simpl.
    intros rs o (th & (v & ix & rest & _ & _ & Hkth) & ->).
    apply kth_largest_Fin in Hkth. destruct Hkth as (vk & -> & Hreal). eauto. }
  destruct (@topk_indices_softmax l') as (js & Hjs & Hsel).
  { clear -HF'. induction HF' as [| rs o rss l' (vk & Hreal & ->) _ IH]; constructor;
      [| assumption].
    apply softmax_defined_mask.
    - rewrite Forall_map, Forall_forall. intros r _. exact I.
    - apply in_map. apply Hreal. }
  exists js. split; [assumption |].
  eapply Forall2_impl; [| exact (Forall2_chain HF' Hsel)]. simpl.
  intros rs j (o & (vk & Hreal & ->) & ps & r & _ & _ & _ & Hj).
  rewrite mask_below_Fin, nth_error_map in Hj.
  destruct (nth_error rs j) as [q |] eqn:Eq; [| discriminate].
  exists vk. split; [apply nth_error_Some; congruence |]. split; [assumption |].
  rewrite (nth_error_nth _ _ 0%R Eq). simpl in Hj.
  unfold Rltb in Hj. destruct (Rlt_dec q vk); [discriminate | lra].
Qed.

(** A first largest entry is not exceeded. *)
Lemma first_largest_real vk rs :
  kth_largest_real 1 vk rs -> Forall (fun r => (r <= vk)%R) rs.
Proof.
  intros (_ & Hgt & _). rewrite Forall_forall. intros r Hr.
  destruct (Rle_dec r vk) as [| Hn]; [assumption | exfalso].
  assert (Hin : In r (filter (fun r => Rltb vk r) rs)).
  { apply filter_In. split; [assumption | apply Rltb_true; lra]. }
  unfold Rcount in Hgt. destruct (filter _ rs); [contradiction | simpl in Hgt; lia].
Qed.

(** * The decode procedure against its description *)

(** C3. Top-k truncation of real-valued score rows, with [k] between 1
    and the vocabulary size: [top_k_logits] returns; in every row the
    threshold [vk] is a [k]-th largest entry, exactly the entries strictly
    below [vk] become [-inf] and all others, the ties at [vk] included, are
    kept; when a single entry equals [vk], exactly [k] entries stay
    finite. *)
Theorem top_k_logits_truncation (rss : list (list R)) (V : nat) (k : Z) :
  Forall (fun rs => length rs = V) rss ->
  (1 <= k <= Z.of_nat V)%Z ->
  exists out,
    top_k_logits (map (map Fin) rss) k = Ok out /\
    Forall2 (fun rs o => exists vk,
               kth_largest_real (Z.to_nat k) vk rs /\
               Forall2 (fun r s => ((r < vk)%R -> s = NegInf) /\
                                   ((vk <= r)%R -> s = Fin r)) rs o /\
               (Rcount (fun r => Reqb r vk) rs = 1 ->
                count is_finb o = Z.to_nat k))
            rss out.
Proof.
  intros HV Hk.
  destruct (@top_k_logits_rows (map (map Fin) rss) k) as (out & Hout & HF).
  { rewrite Forall_map. eapply Forall_impl; [| exact HV].
    simpl. intros rs Hrs. rewrite length_map, Hrs. assumption. }
  exists out. split; [assumption |].
  apply Forall2_map_left in HF.
  eapply Forall2_impl; [| exact HF].
  intros rs o (th & (v & ix & rest & _ & _ & Hkth) & ->).
  apply kth_largest_Fin in Hkth. destruct Hkth as (vk & -> & Hreal).
  exists vk. split; [assumption |]. split; [apply mask_below_Fin_pointwise |].
  intros Hties. rewrite count_fin_mask, Rcount_ge_split, Hties.
  destruct Hreal as (_ & Hgt & Hge). rewrite Rcount_ge_split, Hties in Hge. lia.
Qed.

Section Decode.

Variable rng : Type.
Variable draw : rng -> list R -> nat * rng.
Variable hidden : Type.

(** Without sampling, the value of a run does not depend on the trace or
    on the generator it starts from. *)
Lemma sample_loop_greedy (m : model hidden) bs T tk n
    (rng' : Type) (draw' : rng' -> list R -> nat * rng') :
  forall x (w : world rng) (w' : world rng'),
    fst (sample_loop draw m bs T false tk n x w) =
    fst (sample_loop draw' m bs T false tk n x w').
Proof.
  induction n as [| n IH]; intros x w w'; [reflexivity |].
  rewrite !sample_loop_S, !step_greedy.
  destruct (greedy_step m bs T tk x); [apply IH | reflexivity].
Qed.

(** C6. With [steps = 0] the seed is returned as it is and the model is
    not queried: the trace and the generator are untouched. *)
Theorem sample_zero_steps (m : model hidden) x T smp tk (w : world rng) :
  sample draw m x 0 T smp tk w = (Ok x, w).
Proof. reflexivity. Qed.

(** C4. With a positive window [L = get_block_size - 1] and sequences of
    common length [t]: a step shows the model exactly the cropped
    sequences, which are row by row the trailing slice of length
    [min t L], and the sequences themselves when [t <= L]; in a whole run
    the [i]-th context is that slice of the sequences after [i] appended
    tokens, so its rows have [min (t + i) L] entries, never more than [L]. *)
Theorem context_is_trailing_slice (m : model hidden) x t steps T smp tk (w : world rng) :
  let L := (get_block_size m - 1)%Z in
  (0 < L)%Z -> cols t x ->
  (calls (snd (step draw m L T smp tk x w)) = calls w ++ [x_cond L x] /\
   x_cond L x = map (fun r => skipn (t - Nat.min t (Z.to_nat L)) r) x /\
   cols (Nat.min t (Z.to_nat L)) (x_cond L x) /\
   (t <= Z.to_nat L -> x_cond L x = x)) /\
  exists new,
    calls (snd (sample draw m x steps T smp tk w)) = calls w ++ new /\
    forall i ctx, nth_error new i = Some ctx ->
      exists x', extends_by i x x' /\
                 ctx = map (fun r => skipn (t + i - Nat.min (t + i) (Z.to_nat L)) r) x' /\
                 cols (Nat.min (t + i) (Z.to_nat L)) ctx /\
                 cols (t + i) x'.
Proof.
  intros L HL Hx. split.
  - split; [apply step_calls |].
    split; [apply x_cond_trailing; assumption |].
    split; [apply x_cond_cols; assumption |].
    intros Ht. apply x_cond_unchanged.
    destruct x as [| r x']; simpl; [lia |].
    inversion Hx; subst. lia.
  - unfold sample. fold L.
    destruct (sample_loop_calls draw m L T smp tk (Z.to_nat steps) x w) as (new & Hn & _ & Hall).
    exists new. split; [assumption |].
    intros i ctx Hi. destruct (Hall _ _ Hi) as (x' & Hx' & ->).
    pose proof (extends_by_cols Hx' Hx) as Hc.
    exists x'. split; [assumption |].
    split; [apply x_cond_trailing; assumption |].
    split; [apply x_cond_cols; assumption | assumption].
Qed.

(** C9, amended. When the model's block size is at least 2, every context
    shown to the model during a run has rows of at most
    [get_block_size - 1] entries; the limit is read from the model. *)
Theorem context_bounded_by_block_size (m : model hidden) x t steps T smp tk (w : world rng) :
  (2 <= get_block_size m)%Z -> cols t x ->
  exists new,
    calls (snd (sample draw m x steps T smp tk w)) = calls w ++ new /\
    Forall (Forall (fun r => (Z.of_nat (length r) <= get_block_size m - 1)%Z)) new.
Proof.
  intros Hb Hx. unfold sample.
  destruct (sample_loop_calls draw m (get_block_size m - 1) T smp tk (Z.to_nat steps) x w)
    as (new & Hn & _ & Hall).
  exists new. split; [assumption |].
  rewrite Forall_forall. intros ctx Hin.
  apply In_nth_error in Hin. destruct Hin as [i Hi].
  destruct (Hall _ _ Hi) as (x' & Hx' & ->).
  pose proof (extends_by_cols Hx' Hx) as Hc.
  assert (HL : (0 < get_block_size m - 1)%Z) by lia.
  pose proof (x_cond_cols HL Hc) as Hcc.
  eapply Forall_impl; [| exact Hcc]. simpl. intros r Hr. lia.
Qed.

(** C2, amended. Nothing is validated before the model is queried: for a
    temperature at most 0 and at least one step, the cropped seed is shown
    to the model, whatever happens afterwards. *)
Theorem no_validation_before_forward (m : model hidden) x steps T smp tk (w : world rng) :
  (T <= 0)%R -> (1 <= steps)%Z ->
  exists rest,
    calls (snd (sample draw m x steps T smp tk w)) =
    calls w ++ x_cond (get_block_size m - 1) x :: rest.
Proof.
  intros _ Hs. unfold sample.
  destruct (Z.to_nat steps) as [| n] eqn:E; [lia |].
  apply sample_loop_first_call.
Qed.

Lemma transformed_some (m : model hidden) bs T k x l :
  transformed m bs T None x = Ok l ->
  transformed m bs T (Some k) x = top_k_logits l k.
Proof.
  unfold transformed. destruct (last_position _) as [l0 |]; simpl; [| discriminate].
  intros H. inversion H. reflexivity.
Qed.




(** C7, amended. Without sampling and with [top_k = 1], on score vectors
    of real numbers: the step returns, and the token it appends to each
    sequence is an index at which the score is largest, so the index of
    the largest score when that score is attained once. *)
Theorem top1_selects_largest_score (m : model hidden) bs T x (w : world rng) rss :
  transformed m bs T None x = Ok (map (map Fin) rss) ->
  length rss = length x ->
  Forall (fun rs => rs <> []) rss ->
  exists js x',
    step draw m bs T false (Some 1%Z) x w =
    (Ok x', {| calls := calls w ++ [x_cond bs x]; gen := gen w |}) /\
    cat1 x (as_long (column js)) = Ok x' /\
    Forall2 largest_at rss js.
Proof.
  intros Htr Hlen Hne.
  destruct (@top_k_logits_rows (map (map Fin) rss) 1) as (l' & Hl' & _).
  { rewrite Forall_map. eapply Forall_impl; [| exact Hne]. simpl.
    intros rs Hrs. rewrite length_map. apply nonempty_length in Hrs. lia. }
  destruct (masked_selection _ _ Hl') as (js & Hjs & Hsel).
  destruct (@cat1_total x (as_long (column js))) as (x' & Hx').
  { rewrite column_length, <- (Forall2_length Hsel). congruence. }
  exists js, x'. split; [| split; [assumption |]].
  - rewrite step_greedy. unfold greedy_step.
    rewrite (@transformed_some m bs T 1 x _ Htr), Hl'. simpl. rewrite Hjs. simpl.
    rewrite Hx'. reflexivity.
  - eapply Forall2_impl; [| exact Hsel]. simpl.
    intros rs j (vk & Hj & Hreal & Hge). split; [assumption |].
    intros j' Hj'. apply first_largest_real in Hreal.
    rewrite Forall_forall in Hreal.
    specialize (Hreal (nth j' rs 0%R) (nth_In _ _ Hj')). lra.
Qed.

(** C8, amended. Without sampling, on transformed score vectors with real
    and [-inf] entries, not all [-inf]: the step returns, and the token it
    appends to each sequence is an index whose computed probability is
    largest; that probability is positive and the entry is not one at
    [-inf]. Nothing is said about which index it is among several of
    largest probability. The value of a run is the same whatever trace and
    generator it is started with, so equal inputs give equal outputs. *)
Theorem greedy_selection (m : model hidden) x steps bs T tk (w : world rng) l' :
  transformed m bs T tk x = Ok l' ->
  length l' = length x ->
  Forall score_row l' ->
  (exists js x',
      step draw m bs T false tk x w =
      (Ok x', {| calls := calls w ++ [x_cond bs x]; gen := gen w |}) /\
      cat1 x (as_long (column js)) = Ok x' /\
      Forall2 (fun row j => exists ps,
                 softmax_row row = map Fin ps /\ largest_at ps j /\
                 (0 < nth j ps 0)%R /\ is_fin (nth j row NaN)) l' js) /\
  (forall (rng' : Type) (draw' : rng' -> list R -> nat * rng') (w' : world rng'),
      fst (sample draw m x steps T false tk w) =
      fst (sample draw' m x steps T false tk w')).
Proof.
  intros Htr Hlen Hl. split.
  - destruct (@topk_indices_softmax l') as (js & Hjs & Hsel).
    { eapply Forall_impl; [| exact Hl]. apply score_row_defined. }
    destruct (@cat1_total x (as_long (column js))) as (x' & Hx').
    { rewrite column_length, <- (Forall2_length Hsel). congruence. }
    exists js, x'. split; [| split; [assumption |]].
    + rewrite step_greedy. unfold greedy_step. rewrite Htr. simpl. rewrite Hjs. simpl.
      rewrite Hx'. reflexivity.
    + eapply Forall2_impl; [| exact Hsel]. simpl.
      intros row j (ps & r & Hps & Hlargest & Hpos & Hj).
      exists ps. repeat split; try assumption; try apply Hlargest.
      rewrite (nth_error_nth _ _ NaN Hj). exact I.
  - intros rng' draw' w'. unfold sample. apply sample_loop_greedy.
Qed.

(** C5, amended. When the transformed scores of some sequence are all
    [-inf]: with sampling, the step raises the sampler's error at once,
    after the forward call and before anything is drawn or appended, and
    the run ends with that error; without sampling no error is raised for
    it, and provided every row has entries and the batch sizes agree the
    step appends a token to every sequence. *)
Theorem all_neginf_row (m : model hidden) bs T tk x (w : world rng) l' :
  transformed m bs T tk x = Ok l' ->
  Exists (Forall (fun s => s = NegInf)) l' ->
  let w1 := {| calls := calls w ++ [x_cond bs x]; gen := gen w |} in
  (forall n, sample_loop draw m bs T true tk (S n) x w = (Raise RuntimeError, w1)) /\
  (Forall (fun row => row <> []) l' -> length l' = length x ->
   exists x', step draw m bs T false tk x w = (Ok x', w1) /\ extends_by 1 x x').
Proof.
  intros Htr Hex w1. split.
  - intros n. rewrite sample_loop_S, step_sampling, Htr. simpl. fold w1.
    rewrite multinomial_none; [reflexivity |].
    unfold softmax. clear Htr. induction Hex as [row l' Hrow | row l' _ IH]; simpl.
    + rewrite (drawable_all_neginf Hrow). reflexivity.
    + rewrite IH. destruct (drawable (softmax_row row)); reflexivity.
  - intros Hne Hlen.
    destruct (@topk2_one_total (softmax l')) as (v & ix & Htop).
    { unfold softmax. rewrite Forall_map. eapply Forall_impl; [| exact Hne]. simpl.
      intros row Hr. apply nonempty_length. rewrite softmax_row_length.
      apply nonempty_length. assumption. }
    pose proof (topk2_one_singletons _ Htop) as [Hix Hsing].
    destruct (@cat1_total x (as_long ix)) as (y & Hy).
    { unfold as_long, softmax in *. rewrite length_map in *. congruence. }
    exists y.
    assert (Hstep : step draw m bs T false tk x w = (Ok y, w1)).
    { rewrite step_greedy. unfold greedy_step. rewrite Htr. simpl.
      unfold topk_indices. rewrite Htop. simpl. rewrite Hy. reflexivity. }
    split; [assumption |]. eapply step_extends. eassumption.
Qed.

End Decode.


(** * Further properties of [top_k_logits] *)

(** Outside the range: [k = 0] finds no last column, a negative [k] or one
    above the row length is refused by [topk]. *)
Theorem top_k_logits_out_of_range (logits : list (list score)) (V : nat) (k : Z) :
  logits <> [] -> cols V logits ->
  (k = 0%Z -> top_k_logits logits k = Raise IndexError) /\
  ((k < 0)%Z \/ (Z.of_nat V < k)%Z -> top_k_logits logits k = Raise RuntimeError).
Proof.
  intros Hne HV. destruct logits as [| row logits]; [congruence |].
  inversion HV as [| ? ? Hrow Hrest]; subst. split.
  - intros ->. unfold top_k_logits, topk2.
    destruct (@mapM_result_total _ _ (fun r => topk r 0) (row :: logits)) as (vi & Hvi).
    { rewrite Forall_forall. intros r _.
      destruct (@topk_total r 0) as (v & ix & Hr); [lia |]. eauto. }
    rewrite Hvi. simpl. apply mapM_result_ok in Hvi.
    inversion Hvi as [| ? [v ix] ? vi' Hr _]; subst.
    apply topk_lengths in Hr. destruct Hr as (Hv & _).
    destruct v; [reflexivity | discriminate].
  - intros Hk. unfold top_k_logits, topk2. simpl.
    replace (topk row k) with (@Raise (list score * list nat) RuntimeError); [reflexivity |].
    unfold topk. destruct Hk as [Hk | Hk].
    + destruct (Z.ltb_spec k 0); [reflexivity | lia].
    + destruct (Z.ltb_spec (Z.of_nat (length row)) k); [| lia].
      rewrite orb_true_r. reflexivity.
Qed.

(** Whatever the scores, special values included: a call that returns has
    kept the shape, and every entry is either unchanged or [-inf]. *)
Theorem top_k_logits_only_lowers (logits out : list (list score)) (k : Z) :
  top_k_logits logits k = Ok out ->
  Forall2 (fun row o =>
             Forall2 (fun s s' => s' = s \/ (s' = NegInf /\ s <> NaN)) row o)
          logits out.
Proof.
  intros H. pose proof (top_k_logits_ok_inv _ _ H) as Hk.
  destruct (top_k_logits_rows Hk) as (out' & Hout & HF).
  rewrite H in Hout. inversion Hout; subst out'.
  eapply Forall2_impl; [| exact HF]. simpl.
  intros row o (th & _ & ->). unfold mask_below.
  clear. induction row as [| s row IH]; simpl; constructor; [| assumption].
  destruct (score_ltb s th) eqn:E; [| left; reflexivity].
  right. split; [reflexivity |]. intros ->. discriminate.
Qed.

(** With [k] equal to the vocabulary size nothing is truncated, whatever
    the scores. *)
Theorem top_k_logits_full_vocabulary (logits : list (list score)) (V : nat) :
  1 <= V -> cols V logits ->
  top_k_logits logits (Z.of_nat V) = Ok logits.
Proof.
  intros HV Hc.
  destruct (@top_k_logits_rows logits (Z.of_nat V)) as (out & Hout & HF).
  { eapply Forall_impl; [| exact Hc]. simpl. intros row ->. lia. }
  rewrite Hout. f_equal. symmetry. apply Forall2_eq_same.
  unfold cols in Hc. rewrite Forall_forall in Hc.
  assert (HF' : Forall2 (fun row o => In row logits /\ exists th,
                  threshold_of (Z.of_nat V) row th /\ o = mask_below row th) logits out).
  { clear Hout. induction HF as [| row o l out' H _ IH]; constructor.
    - split; [left; reflexivity | assumption].
    - eapply Forall2_impl; [| apply IH].
      + simpl. intros a b [Hin Hb]. split; [right |]; assumption.
      + intros r Hr. apply Hc. right. assumption. }
  eapply Forall2_impl; [| exact HF']. simpl.
  intros row o (Hin & th & (v & ix & rest & _ & _ & (_ & _ & Hge)) & ->).
  symmetry. apply mask_below_id. apply count_full.
  pose proof (count_le_length (fun s => topk_geb s th) row).
  rewrite Nat2Z.id in Hge. rewrite (Hc row Hin) in *. lia.
Qed.

(** ** Truncating twice *)

Lemma Rcount_le p q rs :
  (forall r, p r = true -> q r = true) -> Rcount p rs <= Rcount q rs.
Proof.
  intros H. unfold Rcount. induction rs as [| r rs IH]; simpl; [lia |].
  destruct (p r) eqn:E; [rewrite (H r E); simpl; lia |].
  destruct (q r); simpl; lia.
Qed.

Lemma count_map_R p (h : R -> score) rs :
  count p (map h rs) = Rcount (fun r => p (h r)) rs.
Proof.
  unfold count, Rcount. induction rs as [| r rs IH]; simpl; [reflexivity |].
  destruct (p (h r)); simpl; congruence.
Qed.

(** A truncated row of real scores is left alone by a second truncation
    with the same [k]. *)
Lemma mask_below_again k vk th' rs :
  kth_largest_real k vk rs ->
  kth_largest k th' (mask_below (map Fin rs) (Fin vk)) ->
  mask_below (mask_below (map Fin rs) (Fin vk)) th' = mask_below (map Fin rs) (Fin vk).
Proof.
  intros (Hin & Hgt & Hge) (Hin' & _ & Hge').
  rewrite mask_below_Fin in *. rewrite count_map_R in Hge'.
  unfold mask_below. rewrite map_map. apply map_ext_in. intros r0 Hr0.
  destruct (Rltb r0 vk) eqn:E0; [destruct (score_ltb NegInf th'); reflexivity |].
  destruct (score_ltb (Fin r0) th') eqn:El; [| reflexivity].
  exfalso.
  assert (Hle : Rcount (fun r => topk_geb (if Rltb r vk then NegInf else Fin r) th') rs
                <= Rcount (fun r => Rltb vk r) rs).
  { apply Rcount_le. intros r Hr. unfold Rltb in *.
    destruct (Rlt_dec r0 vk); [discriminate |].
    destruct th' as [| | v' |]; simpl in El; try discriminate.
    - unfold Rltb in El. destruct (Rlt_dec r0 v'); [| discriminate].
      destruct (Rlt_dec r vk); simpl in Hr; [discriminate |].
      unfold Rltb in Hr. destruct (Rlt_dec r v'); simpl in Hr; [discriminate |].
      destruct (Rlt_dec vk r); [reflexivity | lra].
    - destruct (Rlt_dec r vk); simpl in Hr; discriminate. }
  lia.
Qed.

Lemma Forall2_fixed {A B} (P : A -> B -> Prop) (Q : B -> B -> Prop) l1 l2 l3 :
  Forall2 P l1 l2 -> Forall2 Q l2 l3 ->
  (forall a b c, P a b -> Q b c -> c = b) -> l3 = l2.
Proof.
  intros H. revert l3. induction H as [| a b l1 l2 Hab _ IH]; intros l3 H3 Hfix;
    inversion H3; subst; [reflexivity |].
  f_equal; [eapply Hfix; eassumption | apply IH; assumption].
Qed.

(** Truncation is idempotent on real scores: truncating the truncated
    scores with the same [k] changes nothing more. *)
Theorem top_k_logits_idempotent (rss : list (list R)) (V : nat) (k : Z) :
  Forall (fun rs => length rs = V) rss ->
  (1 <= k <= Z.of_nat V)%Z ->
  rbind (top_k_logits (map (map Fin) rss) k) (fun o => top_k_logits o k) =
  top_k_logits (map (map Fin) rss) k.
Proof.
  intros HV Hk.
  assert (Hrange : Forall (fun row => (1 <= k <= Z.of_nat (length row))%Z)
                          (map (map Fin) rss)).
  { rewrite Forall_map. eapply Forall_impl; [| exact HV].
    simpl. intros rs Hrs. rewrite length_map, Hrs. assumption. }
  destruct (top_k_logits_rows Hrange) as (out & Hout & HF).
  rewrite Hout. simpl.
  pose proof (top_k_logits_cols (V := V)) as Hcols.
  assert (Hc : cols V out).
  { eapply Hcols; [| exact Hout]. unfold cols. rewrite Forall_map.
    eapply Forall_impl; [| exact HV]. simpl. intros rs Hrs. rewrite length_map. assumption. }
  destruct (@top_k_logits_rows out k) as (out2 & Hout2 & HF2).
  { eapply Forall_impl; [| exact Hc]. simpl. intros row ->. assumption. }
  rewrite Hout2. f_equal.
  apply Forall2_map_left in HF.
  eapply Forall2_fixed; [exact HF | exact HF2 |]. simpl.
  intros rs o o2 (th & (v & ix & rest & _ & _ & Hkth) & ->)
         (th' & (v' & ix' & rest' & _ & _ & Hkth') & ->).
  apply kth_largest_Fin in Hkth. destruct Hkth as (vk & -> & Hreal).
  eapply mask_below_again; eassumption.
Qed.

(** ** Rows of a batch *)

(** Every row is truncated against its own threshold: what a call that
    returns gives for a row is what the call on that row alone gives. *)
Theorem top_k_logits_row_by_row (logits out : list (list score)) (k : Z) :
  top_k_logits logits k = Ok out ->
  Forall2 (fun row o => top_k_logits [row] k = Ok [o]) logits out.
Proof.
  intros H. pose proof (top_k_logits_ok_inv _ _ H) as Hk.
  destruct (top_k_logits_rows Hk) as (out' & Hout & HF).
  rewrite H in Hout. inversion Hout; subst out'.
  eapply Forall2_impl; [| exact HF]. simpl.
  intros row o (th & (v & ix & rest & Ht & Hrev & _) & ->).
  unfold top_k_logits, topk2. simpl. rewrite Ht. simpl.
  unfold last_col. simpl. rewrite Hrev. reflexivity.
Qed.

(** * Further properties of [sample] *)

(** ** Truncation and selection without sampling *)

(** With [top_k] and no sampling on rows of real scores, the index
    selected in a row is that of an entry that is not below the [k]-th
    largest score of the row. *)
Theorem greedy_within_top_k (rss : list (list R)) (k : Z) l' ix :
  top_k_logits (map (map Fin) rss) k = Ok l' ->
  topk_indices (softmax l') 1 = Ok ix ->
  Forall2 (fun rs i => exists j vk,
               i = [j] /\ j < length rs /\
               kth_largest_real (Z.to_nat k) vk rs /\
               (vk <= nth j rs 0)%R) rss ix.
Proof.
  intros Htop Hix.
  destruct (masked_selection _ _ Htop) as (js & Hjs & Hsel).
  rewrite Hix in Hjs. inversion Hjs; subst ix.
  unfold column. apply Forall2_map_right.
  eapply Forall2_impl; [| exact Hsel]. simpl.
  intros rs j (vk & Hj & Hreal & Hge). exists j, vk. auto.
Qed.

(** ** Queries, composition and the generator *)

Section Runs.

Variable rng : Type.
Variable draw : rng -> list R -> nat * rng.
Variable hidden : Type.

Lemma step_calls_exact (m : model hidden) bs T smp tk x (w : world rng) r w' :
  step draw m bs T smp tk x w = (r, w') -> calls w' = calls w ++ [x_cond bs x].
Proof.
  intros H. pose proof (step_calls draw m bs T smp tk x w) as Hc.
  rewrite H in Hc. exact Hc.
Qed.

Lemma sample_loop_queries (m : model hidden) bs T smp tk n :
  forall x (w : world rng) r w',
    sample_loop draw m bs T smp tk n x w = (r, w') ->
    exists new,
      calls w' = calls w ++ new /\
      match r with
      | Ok _ => length new = n
      | Raise _ => 1 <= length new <= n
      end.
Proof.
  induction n as [| n IH]; intros x w r w' H.
  - simpl in H. unfold ret in H. inversion H; subst.
    exists []. rewrite app_nil_r. split; reflexivity.
  - rewrite sample_loop_S in H.
    destruct (step draw m bs T smp tk x w) as [[x1 |] w1] eqn:E.
    + apply step_calls_exact in E.
      destruct (IH _ _ _ _ H) as (new & Hn & Hr).
      exists (x_cond bs x :: new). rewrite Hn, E, <- app_assoc. split; [reflexivity |].
      destruct r; simpl; lia.
    + apply step_calls_exact in E. inversion H; subst.
      exists [x_cond bs x]. split; [assumption | simpl; lia].
Qed.

(** Whatever the model and the configuration: a run that returns has
    queried the model exactly once per step and has appended exactly one
    token per step to every seed row; a run that raises has stopped
    querying with the step that failed, after at least one and at most
    [steps] queries. *)
Theorem sample_queries (m : model hidden) x steps T smp tk (w w' : world rng) r :
  sample draw m x steps T smp tk w = (r, w') ->
  exists new,
    calls w' = calls w ++ new /\
    match r with
    | Ok y => length new = Z.to_nat steps /\ extends_by (Z.to_nat steps) x y
    | Raise _ => 1 <= length new <= Z.to_nat steps
    end.
Proof.
  unfold sample. intros H.
  destruct (sample_loop_queries _ _ _ _ _ _ _ _ H) as (new & Hn & Hr).
  exists new. split; [assumption |].
  destruct r as [y | e]; [| assumption].
  split; [assumption |]. eapply sample_loop_extends. eassumption.
Qed.

Lemma sample_loop_app (m : model hidden) bs T smp tk a b :
  forall x (w : world rng),
    sample_loop draw m bs T smp tk (a + b) x w =
    match sample_loop draw m bs T smp tk a x w with
    | (Ok y, w') => sample_loop draw m bs T smp tk b y w'
    | (Raise e, w') => (Raise e, w')
    end.
Proof.
  induction a as [| a IH]; intros x w; [reflexivity |].
  change (S a + b) with (S (a + b)). rewrite !sample_loop_S.
  destruct (step draw m bs T smp tk x w) as [[x1 |] w1]; [apply IH | reflexivity].
Qed.

(** Generating [a + b] tokens is generating [a] tokens and then [b] more
    from the result, in the world the first run left; an error of the
    first run is the error of the whole. *)
Theorem sample_continues (m : model hidden) x a b T smp tk (w : world rng) :
  (0 <= a)%Z -> (0 <= b)%Z ->
  sample draw m x (a + b) T smp tk w =
  match sample draw m x a T smp tk w with
  | (Ok y, w') => sample draw m y b T smp tk w'
  | (Raise e, w') => (Raise e, w')
  end.
Proof.
  intros Ha Hb. unfold sample. rewrite Z2Nat.inj_add by assumption.
  apply sample_loop_app.
Qed.

(** A step count below zero is taken as zero: the seed comes back and the
    model is not queried. *)
Theorem sample_negative_steps (m : model hidden) x steps T smp tk (w : world rng) :
  (steps < 0)%Z -> sample draw m x steps T smp tk w = (Ok x, w).
Proof.
  intros H. unfold sample. destruct steps; try lia. reflexivity.
Qed.

(** Without sampling the random generator is left as it was, whether the
    run returns or raises. *)
Theorem greedy_keeps_generator (m : model hidden) x steps T tk (w : world rng) :
  gen (snd (sample draw m x steps T false tk w)) = gen w.
Proof.
  unfold sample. generalize (Z.to_nat steps). intros n. revert x w.
  induction n as [| n IH]; intros x w; [reflexivity |].
  rewrite sample_loop_S, step_greedy.
  destruct (greedy_step m _ T tk x); [rewrite IH |]; reflexivity.
Qed.

End Runs.

(** ** Runs that return *)

Section Returns.

Variable rng : Type.
Variable draw : rng -> list R -> nat * rng.
Variable hidden : Type.

(** Finite scaled scores, truncated or not, can be drawn from: a step
    returns with and without sampling. *)
Lemma step_returns (m : model hidden) V lo t T smp tk x (w : world rng) :
  predictor_finite V m T lo -> 1 <= V -> valid_top_k V tk ->
  (2 <= get_block_size m)%Z -> cols t x ->
  lo <= Nat.min t (Z.to_nat (get_block_size m - 1)) ->
  exists x' w', step draw m (get_block_size m - 1) T smp tk x w = (Ok x', w').
Proof.
  intros Hm HV Htk Hb Hx Ht.
  set (L := (get_block_size m - 1)%Z) in *.
  assert (HL : (0 < L)%Z) by (unfold L; lia).
  pose proof (x_cond_cols HL Hx) as Hctx.
  destruct (Hm (x_cond L x) _ Hctx) as [Hlen Hpos]; [lia | fold L; lia |].
  destruct (@last_position_ok
              (fun v => length v = V /\ Forall (fun s => is_fin (score_div s T)) v) _ Hpos)
    as (l & Hl & Hll & Hrows).
  destruct (@transformed_defined V tk (map (map (fun s => score_div s T)) l) HV Htk)
    as (l' & Hl' & Hlen' & Hdef).
  { rewrite Forall_map. eapply Forall_impl; [| exact Hrows]. simpl.
    intros row [Hr Hfin]. split; [rewrite length_map; assumption |].
    rewrite Forall_map. assumption. }
  assert (Htr : transformed m L T tk x = Ok l').
  { unfold transformed. rewrite Hl. simpl. assumption. }
  assert (Hrows' : length l' = length x).
  { rewrite Hlen', length_map, Hll, Hlen. apply x_cond_length. }
  destruct smp.
  - rewrite step_sampling, Htr. cbv zeta.
    destruct (@all_drawable_softmax l') as (wss & Hw).
    { eapply Forall_impl; [| exact Hdef]. simpl. intros row [Hd _]. assumption. }
    destruct (@multinomial_some _ draw (softmax l') wss
                {| calls := calls w ++ [x_cond L x]; gen := gen w |} Hw)
      as (ix & w2 & Hmul).
    rewrite Hmul. apply multinomial_ok in Hmul. destruct Hmul as [Hix _].
    destruct (@cat1_total x (as_long ix)) as (y & Hy).
    { unfold as_long, softmax in *. rewrite length_map in *. congruence. }
    rewrite Hy. eauto.
  - rewrite step_greedy. unfold greedy_step. rewrite Htr. simpl.
    destruct (@topk2_one_total (softmax l')) as (v & ix & Htop).
    { unfold softmax. rewrite Forall_map. eapply Forall_impl; [| exact Hdef]. simpl.
      intros row [_ Hr] E. apply (f_equal (@length _)) in E.
      rewrite softmax_row_length in E. simpl in E. lia. }
    unfold topk_indices. rewrite Htop. simpl.
    apply topk2_one_singletons in Htop. destruct Htop as [Hix _].
    destruct (@cat1_total x (as_long ix)) as (y & Hy).
    { unfold as_long, softmax in *. rewrite length_map in *. congruence. }
    rewrite Hy. eauto.
Qed.

(** For sequences of a common length, a configuration whose [top_k] is
    absent or within the vocabulary, a window of at least one token and a
    model whose scores at the last position are finite when divided by the
    temperature: [sample] returns, with and without sampling, and every
    row is the seed row followed by one token per step. *)
Theorem sample_returns (m : model hidden) V t x steps T smp tk (w : world rng) :
  predictor_finite V m T (Nat.min t (Z.to_nat (get_block_size m - 1))) ->
  1 <= V -> valid_top_k V tk ->
  (2 <= get_block_size m)%Z -> cols t x ->
  exists y w',
    sample draw m x steps T smp tk w = (Ok y, w') /\
    extends_by (Z.to_nat steps) x y.
Proof.
  intros Hm HV Htk Hb Hx. unfold sample.
  generalize (Z.to_nat steps). intros n.
  assert (H : forall t' x' (w1 : world rng),
             cols t' x' -> t <= t' ->
             exists y w',
               sample_loop draw m (get_block_size m - 1) T smp tk n x' w1 = (Ok y, w')).
  { induction n as [| n IH]; intros t' x' w1 Hx' Ht'.
    - simpl. unfold ret. eauto.
    - rewrite sample_loop_S.
      destruct (@step_returns m V _ t' T smp tk x' w1 Hm HV Htk Hb Hx')
        as (x1 & w2 & Hs); [lia |].
      rewrite Hs. apply step_extends in Hs.
      apply (IH (t' + 1)); [eapply extends_by_cols; eassumption | lia]. }
  destruct (H t x w Hx (Nat.le_refl t)) as (y & w' & Hrun).
  exists y, w'. split; [assumption |].
  eapply sample_loop_extends. eassumption.
Qed.

End Returns.

(** ** The window *)

(** A window of zero or less does not bound the context: for
    [block_size = 0] the slice [x[:, -0:]] is the whole tensor, and for
    [block_size = -d] the slice [x[:, d:]] drops the first [d] tokens of
    every row. *)
Theorem x_cond_nonpositive_window (L : Z) (x : list (list Z)) :
  (L <= 0)%Z -> x_cond L x = map (skipn (Z.to_nat (- L))) x.
Proof.
  intros HL. unfold x_cond.
  destruct (Z.leb_spec (Z.of_nat (size1 x)) L) as [Hle | Hgt].
  - assert (L = 0%Z) by lia. subst L. simpl.
    symmetry. erewrite map_ext; [apply map_id |]. reflexivity.
  - apply map_ext. intros r. unfold slice_from.
    destruct (Z.ltb_spec (- L) 0); [lia |].
    destruct (Z.min_spec (- L) (Z.of_nat (length r))) as [[Hlt ->] | [Hge ->]];
      [reflexivity |].
    rewrite Nat2Z.id, !skipn_all2; [reflexivity | lia | lia].
Qed.

Lemma skipn_S_tl {A} n (r : list A) : skipn (S n) r = tl (skipn n r).
Proof.
  revert r. induction n as [| n IH]; intros r.
  - destruct r; reflexivity.
  - destruct r as [| a r]; [reflexivity |]. apply (IH r).
Qed.

(** Once the sequences fill the window, appending a column of tokens
    slides it: the next context is the current one without its first
    token, followed by the appended token. *)
Theorem x_cond_slides (L : Z) (t : nat) (x ix x' : list (list Z)) :
  (0 < L)%Z -> cols t x -> Z.to_nat L <= t ->
  Forall (fun i => length i = 1) ix ->
  cat1 x ix = Ok x' ->
  cat1 (map (@tl Z) (x_cond L x)) ix = Ok (x_cond L x').
Proof.
  intros HL Hx Ht Hix Hcat.
  pose proof (@cat1_singletons x ix x' Hix Hcat) as He.
  pose proof (extends_by_cols He Hx) as Hx'.
  rewrite (x_cond_trailing HL Hx), (x_cond_trailing HL Hx').
  clear He. revert ix x' Hix Hcat Hx'.
  induction x as [| r x IH]; intros [| i ix] x' Hix Hcat Hx'; simpl in Hcat;
    try discriminate.
  - inversion Hcat. reflexivity.
  - destruct (cat1 x ix) as [y |] eqn:E; simpl in Hcat; [| discriminate].
    inversion Hcat; subst x'. clear Hcat.
    inversion Hx as [| ? ? Hr Hxs]; subst.
    inversion Hix as [| ? ? Hi Hixs]; subst.
    inversion Hx' as [| ? ? Hr' Hys]; subst.
    simpl. rewrite (IH Hxs ix y Hixs E Hys). simpl. do 2 f_equal.
    replace (length r + 1 - Nat.min (length r + 1) (Z.to_nat L))
      with (S (length r - Z.to_nat L)) by lia.
    replace (length r - Nat.min (length r) (Z.to_nat L))
      with (length r - Z.to_nat L) by lia.
    rewrite skipn_app.
    replace (S (length r - Z.to_nat L) - length r) with 0 by lia.
    change (skipn 0 i) with i. rewrite skipn_S_tl. reflexivity.
Qed.

(** ** Only the window matters *)

Lemma x_cond_shares_tail L t t' x x' :
  (0 < L)%Z -> cols t x -> cols t' x' -> shares_tail (Z.to_nat L) x x' ->
  x_cond L x = x_cond L x'.
Proof.
  intros HL Hx Hx' Hs.
  rewrite (x_cond_trailing HL Hx), (x_cond_trailing HL Hx').
  induction Hs as [| r r' x x' (p & p' & s & -> & -> & Hlen) _ IH]; simpl; [reflexivity |].
  inversion Hx as [| ? ? Hr Hxs]; inversion Hx' as [| ? ? Hr' Hxs']; subst.
  rewrite (IH Hxs Hxs'). f_equal.
  assert (Hcut : forall q : list Z,
             skipn (length (q ++ s) - Nat.min (length (q ++ s)) (Z.to_nat L)) (q ++ s)
             = skipn (length s - Z.to_nat L) s).
  { intros q. rewrite length_app, skipn_app.
    rewrite (@skipn_all2 _ _ q) by lia. simpl. f_equal. lia. }
  rewrite !Hcut. reflexivity.
Qed.

Lemma cat1_shares_tail k x x' ix :
  shares_tail k x x' -> Forall (fun i => length i = 1) ix ->
  match cat1 x ix, cat1 x' ix with
  | Ok y, Ok y' => shares_tail (k + 1) y y'
  | Raise e, Raise e' => e = e'
  | _, _ => False
  end.
Proof.
  intros Hs. revert ix.
  induction Hs as [| r r' x x' (p & p' & s & -> & -> & Hlen) _ IH]; intros ix Hix.
  - destruct ix; simpl; [constructor | reflexivity].
  - destruct ix as [| i ix]; simpl; [reflexivity |].
    inversion Hix as [| ? ? Hi Hix']; subst.
    specialize (IH ix Hix').
    destruct (cat1 x ix) as [y |], (cat1 x' ix) as [y' |]; simpl; try contradiction.
    + constructor; [| assumption].
      exists p, p', (s ++ i). rewrite <- !app_assoc, length_app.
      repeat split; lia.
    + assumption.
Qed.

Section Window.

Variable rng : Type.
Variable draw : rng -> list R -> nat * rng.
Variable hidden : Type.

Lemma step_factor (m : model hidden) bs T smp tk x (w : world rng) :
  step draw m bs T smp tk x w =
  match next_tokens draw m T smp tk (x_cond bs x) w with
  | (Ok ix, w1) => (cat1 x (as_long ix), w1)
  | (Raise e, w1) => (Raise e, w1)
  end.
Proof.
  unfold next_tokens. destruct smp.
  - rewrite step_sampling. unfold transformed. simpl.
    destruct (rbind (last_position _) _) as [l' |]; reflexivity.
  - rewrite step_greedy. unfold greedy_step, transformed. simpl.
    destruct (rbind (last_position _) _) as [l' |]; simpl; [| reflexivity].
    destruct (topk_indices (softmax l') 1); reflexivity.
Qed.

Lemma next_tokens_singletons (m : model hidden) T smp tk ctx (w w1 : world rng) ix :
  next_tokens draw m T smp tk ctx w = (Ok ix, w1) ->
  Forall (fun i => length i = 1) ix.
Proof.
  unfold next_tokens. destruct (rbind _ _) as [l' |]; [| discriminate].
  destruct smp.
  - intros H. apply multinomial_ok in H. apply H.
  - unfold topk_indices. destruct (topk2 (softmax l') 1) as [[v ix'] |] eqn:E;
      simpl; [| discriminate].
    intros H. inversion H; subst. apply topk2_one_singletons in E. apply E.
Qed.

Lemma step_shares_tail (m : model hidden) L T smp tk k t t' x x' (w : world rng) :
  (0 < L)%Z -> Z.to_nat L <= k -> cols t x -> cols t' x' -> shares_tail k x x' ->
  match step draw m L T smp tk x w, step draw m L T smp tk x' w with
  | (Ok y, w1), (Ok y', w1') => w1 = w1' /\ shares_tail (k + 1) y y'
  | (Raise e, w1), (Raise e', w1') => e = e' /\ w1 = w1'
  | _, _ => False
  end.
Proof.
  intros HL Hk Hx Hx' Hs.
  assert (Hctx : x_cond L x = x_cond L x').
  { apply (x_cond_shares_tail HL Hx Hx').
    eapply Forall2_impl; [| exact Hs]. simpl.
    intros r r' (p & p' & s & -> & -> & Hlen). exists p, p', s. repeat split. lia. }
  rewrite !step_factor, <- Hctx.
  destruct (next_tokens draw m T smp tk (x_cond L x) w) as [[ix |] w1] eqn:E.
  - apply next_tokens_singletons in E.
    assert (Hsing : Forall (fun i => length i = 1) (as_long ix)).
    { unfold as_long. rewrite Forall_map. eapply Forall_impl; [| exact E].
      simpl. intros i Hi. rewrite length_map. assumption. }
    pose proof (cat1_shares_tail Hs Hsing) as Hc.
    destruct (cat1 x (as_long ix)), (cat1 x' (as_long ix)); try contradiction; auto.
  - auto.
Qed.

(** The model sees a finite window, so only the window matters: two seeds
    whose rows end with the same [get_block_size - 1] or more tokens,
    started in the same world, leave the same world behind and either
    raise the same error or return rows that end with the same tokens, the
    appended ones included. This holds with and without sampling. *)
Theorem window_determines_continuation
    (m : model hidden) t t' x x' steps T smp tk (w : world rng) :
  (2 <= get_block_size m)%Z -> cols t x -> cols t' x' ->
  shares_tail (Z.to_nat (get_block_size m - 1)) x x' ->
  match sample draw m x steps T smp tk w, sample draw m x' steps T smp tk w with
  | (Ok y, w1), (Ok y', w1') =>
      w1 = w1' /\
      shares_tail (Z.to_nat (get_block_size m - 1) + Z.to_nat steps) y y'
  | (Raise e, w1), (Raise e', w1') => e = e' /\ w1 = w1'
  | _, _ => False
  end.
Proof.
  intros Hb Hx Hx' Hs. unfold sample.
  set (L := (get_block_size m - 1)%Z) in *.
  assert (HL : (0 < L)%Z) by (unfold L; lia).
  generalize (Z.to_nat steps). intros n.
  assert (H : forall k t t' x x' (w : world rng),
             Z.to_nat L <= k -> cols t x -> cols t' x' -> shares_tail k x x' ->
             match sample_loop draw m L T smp tk n x w,
                   sample_loop draw m L T smp tk n x' w with
             | (Ok y, w1), (Ok y', w1') => w1 = w1' /\ shares_tail (k + n) y y'
             | (Raise e, w1), (Raise e', w1') => e = e' /\ w1 = w1'
             | _, _ => False
             end).
  { clear t t' x x' w Hx Hx' Hs.
    induction n as [| n IH]; intros k t t' x x' w Hk Hx Hx' Hs.
    - simpl. unfold ret. split; [reflexivity |].
      rewrite Nat.add_0_r. assumption.
    - rewrite !sample_loop_S.
      pose proof (@step_shares_tail m L T smp tk k t t' x x' w HL Hk Hx Hx' Hs) as Hstep.
      destruct (step draw m L T smp tk x w) as [[y |] w1] eqn:E,
               (step draw m L T smp tk x' w) as [[y' |] w1'] eqn:E';
        try contradiction.
      + destruct Hstep as [<- Hs1].
        apply step_extends in E, E'.
        replace (k + S n) with ((k + 1) + n) by lia.
        apply (IH (k + 1) (t + 1) (t' + 1)); [lia | | | assumption].
        * eapply extends_by_cols; eassumption.
        * eapply extends_by_cols; eassumption.
      + assumption. }
  apply (H (Z.to_nat L) t t' x x' w); [lia | assumption | assumption | assumption].
Qed.

End Window.

(** ** What can be selected *)

Lemma weights_inv row ws :
  weights row = Some ws -> row = map Fin ws /\ Forall (fun p => (0 <= p)%R) ws.
Proof.
  revert ws. induction row as [| s row IH]; intros ws H; simpl in H.
  - inversion H. split; [reflexivity | constructor].
  - destruct s; try discriminate.
    unfold Rleb in H. destruct (Rle_dec 0 r) as [Hr |]; [| discriminate].
    destruct (weights row) as [ws' |]; simpl in H; [| discriminate].
    inversion H; subst. destruct (IH ws' eq_refl) as [-> Hall].
    split; [reflexivity | constructor; assumption].
Qed.

Lemma drawable_inv row ws :
  drawable row = Some ws ->
  row = map Fin ws /\ Forall (fun p => (0 <= p)%R) ws /\ (0 < Rsum ws)%R.
Proof.
  unfold drawable. destruct (weights row) as [ws' |] eqn:E; [| discriminate].
  destruct (Rltb 0 (Rsum ws')) eqn:Es; [| discriminate].
  intros H. inversion H; subst. apply weights_inv in E. destruct E as [-> Hall].
  repeat split; [assumption | apply Rltb_spec; assumption].
Qed.

Lemma all_drawable_inv probs wss :
  all_drawable probs = Some wss ->
  Forall2 (fun row ws => drawable row = Some ws) probs wss.
Proof.
  revert wss. induction probs as [| row probs IH]; intros wss H; simpl in H.
  - inversion H. constructor.
  - destruct (drawable row) as [ws |] eqn:E; [| discriminate].
    destruct (all_drawable probs) as [wss' |]; [| discriminate].
    inversion H; subst. constructor; [assumption | apply IH; reflexivity].
Qed.

Section Selected.

Variable rng : Type.
Variable draw : rng -> list R -> nat * rng.
Variable hidden : Type.

Lemma draw_rows_positive wss :
  draw_ok draw ->
  Forall (fun ws => Forall (fun p => (0 <= p)%R) ws /\ (0 < Rsum ws)%R) wss ->
  forall (w w' : world rng) ix,
    draw_rows draw wss w = (Ok ix, w') ->
    Forall2 (fun ws i => exists j,
                 i = [j] /\ j < length ws /\ (0 < nth j ws 0)%R) wss ix.
Proof.
  intros Hd. induction 1 as [| ws wss [Hnn Hsum] _ IH]; intros w w' ix H; simpl in H.
  - unfold ret in H. inversion H. constructor.
  - destruct (Hd (gen w) ws Hnn Hsum) as [Hlt Hpos].
    destruct (draw (gen w) ws) as [j g] eqn:E. simpl in *.
    unfold bind, ret in H.
    destruct (draw_rows draw wss _) as [[ixs |] w1] eqn:Er; [| discriminate].
    inversion H; subst. constructor; [eauto | eapply IH; eassumption].
Qed.

Lemma multinomial_positive probs (w w' : world rng) ix :
  draw_ok draw ->
  multinomial draw probs w = (Ok ix, w') ->
  Forall2 (fun row i => exists ws j,
               drawable row = Some ws /\ i = [j] /\ j < length ws /\
               (0 < nth j ws 0)%R) probs ix.
Proof.
  intros Hd. unfold multinomial.
  destruct (all_drawable probs) as [wss |] eqn:E; [| unfold lift; discriminate].
  intros H. apply all_drawable_inv in E.
  assert (Hw : Forall (fun ws => Forall (fun p => (0 <= p)%R) ws /\ (0 < Rsum ws)%R) wss).
  { clear H. induction E as [| row ws probs wss Hrow _ IH]; constructor; [| assumption].
    apply drawable_inv in Hrow. tauto. }
  pose proof (draw_rows_positive Hd Hw _ H) as Hix.
  eapply Forall2_impl; [| exact (Forall2_chain E Hix)]. simpl.
  intros row i (ws & Hrow & j & Hi & Hj & Hpos). eauto 7.
Qed.

(** With [top_k] and sampling on rows of real scores, a sampler that never
    returns an index of weight zero only selects entries that are not
    below the [k]-th largest score. *)
Theorem top_k_sampling_within_top_k
    (rss : list (list R)) (k : Z) l' ix (w w' : world rng) :
  draw_ok draw ->
  top_k_logits (map (map Fin) rss) k = Ok l' ->
  multinomial draw (softmax l') w = (Ok ix, w') ->
  Forall2 (fun rs i => exists j vk,
               i = [j] /\ j < length rs /\
               kth_largest_real (Z.to_nat k) vk rs /\
               (vk <= nth j rs 0)%R) rss ix.
Proof.
  intros Hd Htop Hmul.
  pose proof (top_k_logits_ok_inv _ _ Htop) as Hk.
  destruct (top_k_logits_rows Hk) as (out & Hout & HF).
  rewrite Htop in Hout. inversion Hout; subst out. clear Hout.
  apply Forall2_map_left in HF.
  apply (@multinomial_positive _ _ _ _ Hd) in Hmul. unfold softmax in Hmul.
  assert (Hmul' : Forall2 (fun o i => exists ws j,
                      drawable (softmax_row o) = Some ws /\ i = [j] /\
                      j < length ws /\ (0 < nth j ws 0)%R) l' ix).
  { clear -Hmul. remember (map softmax_row l') as probs eqn:Ep. revert l' Ep.
    induction Hmul as [| row i probs ix H _ IH]; intros l' Ep;
      destruct l' as [| o l']; try discriminate; constructor.
    - simpl in Ep. inversion Ep; subst. assumption.
    - apply IH. simpl in Ep. inversion Ep. reflexivity. }
  eapply Forall2_impl; [| exact (Forall2_chain HF Hmul')]. simpl.
  intros rs i (o & (th & (v & ix0 & rest & _ & _ & Hkth) & ->) & ws & j & Hdr & -> & Hj & Hpos).
  apply kth_largest_Fin in Hkth. destruct Hkth as (vk & -> & Hreal).
  assert (Hdef : softmax_defined (mask_below (map Fin rs) (Fin vk)) = true).
  { apply softmax_defined_mask.
    - rewrite Forall_map, Forall_forall. intros r _. exact I.
    - apply in_map. apply Hreal. }
  apply drawable_inv in Hdr. destruct Hdr as (Hrow & _ & _).
  assert (Hlen : length ws = length rs).
  { apply (f_equal (@length _)) in Hrow.
    rewrite softmax_row_length, mask_below_length, !length_map in Hrow. lia. }
  rewrite Hlen in Hj.
  exists j, vk. split; [reflexivity |]. split; [assumption |]. split; [assumption |].
  destruct (nth_error rs j) as [q |] eqn:Eq.
  2:{ apply nth_error_None in Eq. lia. }
  assert (Ho : nth_error (mask_below (map Fin rs) (Fin vk)) j =
               Some (if Rltb q vk then NegInf else Fin q)).
  { rewrite mask_below_Fin, nth_error_map, Eq. reflexivity. }
  pose proof (@softmax_row_nth _ j _ Hdef Ho) as Hp.
  rewrite Hrow, nth_error_map in Hp.
  destruct (nth_error ws j) as [p |] eqn:Ep; [| discriminate].
  apply (nth_error_nth _ _ 0%R) in Ep. rewrite Ep in Hpos.
  rewrite (nth_error_nth _ _ 0%R Eq).
  unfold Rltb in Hp. destruct (Rlt_dec q vk); simpl in Hp; inversion Hp; subst; lra.
Qed.

End Selected.

(** ** Tokens stay within the vocabulary *)

Lemma extends_within_refl V x : extends_within V x x.
Proof.
  induction x; constructor; [| assumption].
  exists []. split; [symmetry; apply app_nil_r | constructor].
Qed.

Lemma extends_within_trans V x y z :
  extends_within V x y -> extends_within V y z -> extends_within V x z.
Proof.
  intros H. revert z. induction H as [| r r' x y (s & -> & Hs) _ IH]; intros z Hz.
  - inversion Hz. constructor.
  - inversion Hz as [| ? r'' ? z' (s' & -> & Hs') Hz']; subst.
    constructor; [| apply IH; assumption].
    exists (s ++ s'). split; [symmetry; apply app_assoc |].
    apply Forall_app. split; assumption.
Qed.

Lemma topk_one_bound row v ix :
  topk row 1 = Ok (v, ix) -> exists j, ix = [j] /\ j < length row.
Proof.
  intros H. assert (Hne : row <> []) by (intros ->; discriminate).
  destruct (topk_one Hne) as (v' & j & Ht & Hj).
  rewrite H in Ht. inversion Ht; subst. exists j.
  split; [reflexivity | apply nth_error_Some; congruence].
Qed.

Lemma topk_indices_bound t ix :
  topk_indices t 1 = Ok ix ->
  Forall2 (fun row i => exists j, i = [j] /\ j < length row) t ix.
Proof.
  rewrite topk_indices_rows. intros H. apply mapM_result_ok in H.
  eapply Forall2_impl; [| exact H]. simpl. intros row i Hrow.
  destruct (topk row 1) as [[v ix'] |] eqn:E; simpl in Hrow; [| discriminate].
  inversion Hrow; subst. eapply topk_one_bound. eassumption.
Qed.

Lemma last_position_cols V o l :
  Forall (Forall (fun v : list score => length v = V)) o ->
  last_position o = Ok l -> cols V l.
Proof.
  intros Ho H. unfold last_position in H. apply mapM_result_ok in H.
  unfold cols. induction H as [| positions v o l Hv _ IH]; constructor.
  - inversion Ho as [| ? ? Hp _]; subst.
    destruct (rev positions) as [| v' rest] eqn:E; [discriminate |].
    inversion Hv; subst. rewrite Forall_forall in Hp. apply Hp.
    apply in_rev. rewrite E. left. reflexivity.
  - apply IH. inversion Ho; assumption.
Qed.

Section Vocabulary.

Variable rng : Type.
Variable draw : rng -> list R -> nat * rng.
Variable hidden : Type.

Lemma next_tokens_bound (m : model hidden) V T smp tk ctx (w w1 : world rng) ix :
  (forall c, Forall (Forall (fun v => length v = V)) (target_layer m (local_forward m c))) ->
  (smp = true -> draw_ok draw) ->
  next_tokens draw m T smp tk ctx w = (Ok ix, w1) ->
  Forall (fun i => exists j, i = [j] /\ j < V) ix.
Proof.
  intros Hm Hd. unfold next_tokens.
  destruct (last_position (target_layer m (local_forward m ctx))) as [l |] eqn:El;
    simpl; [| discriminate].
  apply (last_position_cols (Hm ctx)) in El.
  assert (Hs : cols V (map (map (fun s => score_div s T)) l)).
  { unfold cols in *. rewrite Forall_map. eapply Forall_impl; [| exact El].
    simpl. intros row Hr. rewrite length_map. assumption. }
  destruct (match tk with Some k => _ | None => _ end) as [l' |] eqn:Etk; [| discriminate].
  assert (Hl' : cols V l').
  { destruct tk as [k |]; [eapply top_k_logits_cols; eassumption |].
    inversion Etk; subst. assumption. }
  assert (Hrows : forall (ix : list (list nat)),
             Forall2 (fun row i => exists j, i = [j] /\ j < length row) (softmax l') ix ->
             Forall (fun i => exists j, i = [j] /\ j < V) ix).
  { clear -Hl'. unfold softmax, cols in *. intros ix H.
    remember (map softmax_row l') as probs eqn:Ep. revert l' Hl' Ep.
    induction H as [| row i probs ix (j & -> & Hj) _ IH]; intros l' Hl' Ep; [constructor |].
    destruct l' as [| o l']; [discriminate |]. simpl in Ep. inversion Ep; subst.
    inversion Hl'; subst. rewrite softmax_row_length in Hj.
    constructor; [eauto | eapply IH; [eassumption | reflexivity]]. }
  destruct smp.
  - intros H. apply (@multinomial_positive _ _ _ _ _ _ (Hd eq_refl)) in H.
    apply Hrows. eapply Forall2_impl; [| exact H]. simpl.
    intros row i (ws & j & Hdr & -> & Hj & _).
    apply drawable_inv in Hdr. destruct Hdr as (-> & _).
    exists j. rewrite length_map. auto.
  - intros H. apply Hrows. apply topk_indices_bound.
    destruct (topk_indices (softmax l') 1); inversion H; reflexivity.
Qed.

Lemma step_within (m : model hidden) V bs T smp tk x (w w1 : world rng) x1 :
  (forall c, Forall (Forall (fun v => length v = V)) (target_layer m (local_forward m c))) ->
  (smp = true -> draw_ok draw) ->
  step draw m bs T smp tk x w = (Ok x1, w1) -> extends_within V x x1.
Proof.
  intros Hm Hd. rewrite step_factor.
  destruct (next_tokens draw m T smp tk (x_cond bs x) w) as [[ix |] w2] eqn:E;
    [| discriminate].
  eapply next_tokens_bound in E; [| exact Hm | exact Hd].
  destruct (cat1 x (as_long ix)) as [y |] eqn:Ec; intros H; inversion H; subst.
  apply cat1_ok in Ec. eapply Forall2_impl; [| exact Ec]. simpl.
  intros r r' (i & Hi & ->). exists i. split; [reflexivity |].
  unfold as_long in Hi. apply in_map_iff in Hi. destruct Hi as (i0 & <- & Hi0).
  rewrite Forall_forall in E. destruct (E _ Hi0) as (j & -> & Hj).
  simpl. constructor; [lia | constructor].
Qed.

(** With a model whose score vectors have [V] entries, every token a
    returning run appends is a valid index into the vocabulary,
    [0 <= tok < V]; with sampling this needs a sampler that stays within
    the row it draws from. The seed tokens are passed through as they
    are. *)
Theorem tokens_in_vocabulary (m : model hidden) V x steps T smp tk (w w' : world rng) y :
  (forall c, Forall (Forall (fun v => length v = V)) (target_layer m (local_forward m c))) ->
  (smp = true -> draw_ok draw) ->
  sample draw m x steps T smp tk w = (Ok y, w') ->
  extends_within V x y.
Proof.
  intros Hm Hd. unfold sample. generalize (Z.to_nat steps). intros n. revert x w.
  induction n as [| n IH]; intros x w H.
  - simpl in H. unfold ret in H. inversion H; subst. apply extends_within_refl.
  - rewrite sample_loop_S in H.
    destruct (step draw m _ T smp tk x w) as [[x1 |] w1] eqn:E; [| discriminate].
    eapply step_within in E; [| exact Hm | exact Hd].
    eapply extends_within_trans; [exact E | eapply IH; eassumption].
Qed.

End Vocabulary.

End Library.

(** * Instances *)

(** ** The two implementations keep the guarantees *)

Lemma exp_sum_nonneg row : (0 <= exp_sum row)%R.
Proof.
  induction row as [| s row IH]; simpl; [lra |].
  destruct s; try assumption. pose proof (exp_pos r). lra.
Qed.

Lemma exp_sum_pos row : existsb is_finb row = true -> (0 < exp_sum row)%R.
Proof.
  induction row as [| s row IH]; simpl; [discriminate |].
  pose proof (exp_sum_nonneg row).
  destruct s; simpl; try assumption.
  intros _. pose proof (exp_pos r). lra.
Qed.

Lemma prob_of_nonneg S s : (0 < S)%R -> (0 <= prob_of S s)%R.
Proof.
  intros HS. destruct s; simpl; try lra.
  pose proof (exp_pos r). apply Rlt_le. apply Rdiv_lt_0_compat; assumption.
Qed.

Lemma exact_prob_nonneg row j :
  softmax_defined row = true -> (0 <= prob_of (exp_sum row) (nth j row NaN))%R.
Proof.
  intros Hd. apply prob_of_nonneg.
  unfold softmax_defined in Hd. apply andb_prop in Hd. destruct Hd as [_ Hex].
  apply exp_sum_pos. assumption.
Qed.

Lemma exact_prob_pos row j r :
  softmax_defined row = true -> nth_error row j = Some (Fin r) ->
  (0 < prob_of (exp_sum row) (nth j row NaN))%R.
Proof.
  intros Hd Hj. rewrite (nth_error_nth _ _ NaN Hj). simpl.
  unfold softmax_defined in Hd. apply andb_prop in Hd. destruct Hd as [_ Hex].
  apply Rdiv_lt_0_compat; [apply exp_pos | apply exp_sum_pos; assumption].
Qed.

Lemma ideal_ok : faithful ideal.
Proof.
  split.
  - intros row k _. exists (sort_desc (indexed row)).
    split; [apply sort_desc_perm |]. split; [apply sort_desc_descending | reflexivity].
  - intros row j Hd. apply (@exact_prob_nonneg row j Hd).
  - intros row j r Hd Hj _. apply (@exact_prob_pos row j r Hd Hj).
Qed.

Lemma descendingb_spec s : descendingb s = true -> descending s.
Proof.
  unfold descending. induction s as [| p s IH]; simpl; intros H; [constructor |].
  apply andb_prop in H. destruct H as [H1 H2].
  constructor; [apply IH; assumption |].
  rewrite forallb_forall in H1. apply Forall_forall. assumption.
Qed.

Lemma indexed_entries (row : list score) :
  indexed row = map (fun i => (i, nth i row NaN)) (seq 0 (length row)).
Proof.
  unfold indexed.
  assert (H : forall a,
             combine (seq a (length row)) row =
             map (fun i => (i, nth (i - a) row NaN)) (seq a (length row))).
  { induction row as [| s row IH]; intros a; simpl; [reflexivity |].
    rewrite Nat.sub_diag. f_equal. rewrite IH. apply map_ext_in.
    intros i Hi. apply in_seq in Hi.
    replace (i - a) with (S (i - S a)) by lia. reflexivity. }
  rewrite H. apply map_ext. intros i. rewrite Nat.sub_0_r. reflexivity.
Qed.

Lemma kernel_arrangement_ok row k :
  Permutation (kernel_arrangement row k) (indexed row) /\
  descending (kernel_arrangement row k).
Proof.
  assert (Hstable : Permutation (sort_desc (indexed row)) (indexed row) /\
                    descending (sort_desc (indexed row))).
  { split; [apply sort_desc_perm | apply sort_desc_descending]. }
  unfold kernel_arrangement.
  destruct (kernel_queue _ (length row) k) as [queue |]; [| exact Hstable].
  destruct (_ && _) eqn:E; [| exact Hstable].
  apply andb_prop in E. destruct E as [E Hdesc].
  apply andb_prop in E. destruct E as [Hlen Hall].
  apply Nat.eqb_eq in Hlen. split; [| apply descendingb_spec; assumption].
  rewrite sort_desc_perm, <- map_app, firstn_skipn, indexed_entries.
  apply Permutation_map. apply Permutation_sym.
  apply NoDup_Permutation_bis.
  - apply seq_NoDup.
  - rewrite length_seq. lia.
  - intros i Hi. rewrite forallb_forall in Hall. specialize (Hall i Hi).
    apply existsb_exists in Hall. destruct Hall as (i' & Hin & Heq).
    apply Nat.eqb_eq in Heq. subst. assumption.
Qed.

Lemma cpu_kernel_ok : faithful cpu_kernel.
Proof.
  split.
  - intros row k _. exists (kernel_arrangement row k).
    destruct (kernel_arrangement_ok row k) as [Hp Hd].
    split; [assumption |]. split; [assumption | reflexivity].
  - intros row j Hd. apply (@exact_prob_nonneg row j Hd).
  - intros row j r Hd Hj _. apply (@exact_prob_pos row j r Hd Hj).
Qed.

(** ** Running the kernel *)

Lemma descending_app A B :
  descending A -> descending B ->
  (forall a b, In a A -> In b B -> topk_geb (snd a) (snd b) = true) ->
  descending (A ++ B).
Proof.
  unfold descending. induction A as [| a A IH]; simpl; intros HA HB H; [assumption |].
  inversion HA; subst. constructor.
  - apply IH; auto.
  - apply Forall_app. split; [assumption |].
    apply Forall_forall. intros b Hb. apply H; auto.
Qed.

Lemma descendingb_complete s : descending s -> descendingb s = true.
Proof.
  unfold descending. induction 1 as [| p s Hs IH Hp]; simpl; [reflexivity |].
  rewrite IH, andb_true_r. apply forallb_forall. rewrite Forall_forall in Hp. assumption.
Qed.

(** When the entries of a row compare as the integers [key] gives to
    their positions, the kernel can be run on the keys. *)
Lemma kernel_order_keys row k key queue :
  (forall i j, topk_geb (nth i row NaN) (nth j row NaN) = (key j <=? key i)) ->
  kernel_queue (fun i j => key j <? key i) (length row) k = Some queue ->
  (length queue =? length row)
  && forallb (fun i => existsb (Nat.eqb i) queue) (seq 0 (length row)) = true ->
  sorted_keys key (firstn k queue)
  && forallb (fun i => forallb (fun j => key j <=? key i) (skipn k queue))
             (firstn k queue) = true ->
  k <= length queue ->
  topk_order cpu_kernel row k = map (fun i => (i, nth i row NaN)) (firstn k queue).
Proof.
  intros Hkey Hq Hperm Hsort Hk. cbn [topk_order cpu_kernel]. unfold kernel_arrangement.
  replace (fun i j => negb (topk_geb (nth j row NaN) (nth i row NaN)))
    with (fun i j => key j <? key i).
  2:{ extensionality i. extensionality j. rewrite Hkey. apply Nat.ltb_antisym. }
  rewrite Hq, Hperm. cbn [andb].
  apply andb_prop in Hsort. destruct Hsort as [Hsel Hcross].
  rewrite descendingb_complete.
  - rewrite firstn_app, length_map, length_firstn.
    replace (k - Nat.min k (length queue)) with 0 by lia.
    rewrite firstn_all2 by (rewrite length_map, length_firstn; lia).
    cbn [firstn]. apply app_nil_r.
  - apply descending_app.
    + clear -Hkey Hsel. unfold descending.
      induction (firstn k queue) as [| i l IH]; simpl in *; constructor.
      * apply IH. apply andb_prop in Hsel. apply Hsel.
      * apply andb_prop in Hsel. destruct Hsel as [Hi _].
        rewrite forallb_forall in Hi. rewrite Forall_map, Forall_forall.
        intros j Hj. simpl. rewrite Hkey. apply Hi. assumption.
    + apply sort_desc_descending.
    + intros a b Ha Hb.
      apply (Permutation_in _ (sort_desc_perm _)) in Hb.
      apply in_map_iff in Ha, Hb.
      destruct Ha as (i & <- & Hi). destruct Hb as (j & <- & Hj). simpl.
      rewrite Hkey. rewrite forallb_forall in Hcross.
      specialize (Hcross i Hi). rewrite forallb_forall in Hcross. apply Hcross. assumption.
Qed.

Ltac compare_keys :=
  intros [| [| [| [| [| i]]]]] [| [| [| [| [| j]]]]];
  cbn -[Rltb];
  repeat first [rewrite Rltb_true by lra | rewrite Rltb_false by lra];
  reflexivity.

(** Four equal entries: the kernel returns position 2. *)
Lemma kernel_four_equal p :
  topk cpu_kernel [Fin p; Fin p; Fin p; Fin p] 1 = Ok ([Fin p], [2]).
Proof.
  unfold topk. cbn [length Z.of_nat Z.ltb orb Z.compare].
  change (Z.to_nat 1) with 1.
  rewrite (@kernel_order_keys _ 1
             (fun i => match i with 0 | 1 | 2 | 3 => 0 | _ => 1 end) [2; 3; 0; 1]);
    [reflexivity | compare_keys | reflexivity | reflexivity | reflexivity | simpl; lia].
Qed.

(** The largest value at both ends and two equal smaller values between
    them: position 3. *)
Lemma kernel_ends_equal_middle a :
  (0 < a)%R ->
  topk cpu_kernel [Fin a; Fin 0; Fin 0; Fin a] 1 = Ok ([Fin a], [3]).
Proof.
  intros Ha. unfold topk. cbn [length Z.of_nat Z.ltb orb Z.compare].
  change (Z.to_nat 1) with 1.
  rewrite (@kernel_order_keys _ 1
             (fun i => match i with 0 | 3 => 1 | 1 | 2 => 0 | _ => 2 end) [3; 0; 2; 1]);
    [reflexivity | compare_keys | reflexivity | reflexivity | reflexivity | simpl; lia].
Qed.

(** The largest value at both ends and two decreasing values between
    them: position 0. *)
Lemma kernel_ends_decreasing_middle a b c :
  (c < b)%R -> (b < a)%R ->
  topk cpu_kernel [Fin a; Fin b; Fin c; Fin a] 1 = Ok ([Fin a], [0]).
Proof.
  intros Hcb Hba. unfold topk. cbn [length Z.of_nat Z.ltb orb Z.compare].
  change (Z.to_nat 1) with 1.
  rewrite (@kernel_order_keys _ 1
             (fun i => match i with 0 | 3 => 2 | 1 => 1 | 2 => 0 | _ => 3 end) [0; 3; 1; 2]);
    [reflexivity | compare_keys | reflexivity | reflexivity | reflexivity | simpl; lia].
Qed.

(** ** The claims on concrete runs *)

Lemma top_k_logits_truncation_witness :
  exists out,
    top_k_logits ideal (map (map Fin) [[1; 3; 2]%R]) 2 = Ok out /\
    Forall2 (fun rs o => exists vk,
               kth_largest_real (Z.to_nat 2) vk rs /\
               Forall2 (fun r s => ((r < vk)%R -> s = NegInf) /\
                                   ((vk <= r)%R -> s = Fin r)) rs o /\
               (Rcount (fun r => Reqb r vk) rs = 1 ->
                count is_finb o = Z.to_nat 2))
            [[1; 3; 2]%R] out.
Proof.
  apply (@top_k_logits_truncation ideal ideal_ok [[1; 3; 2]%R] 3 2).
  - repeat constructor.
  - lia.
Defined.


Lemma constant_model_finite bsz rs T lo :
  1 <= lo -> T <> 0%R ->
  predictor_finite ideal (length rs) (constant_model bsz (map Fin rs)) T lo.
Proof.
  intros Hlo HT ctx t' Hctx Ht' _. simpl. split; [apply length_map |].
  rewrite Forall_map. eapply Forall_impl; [| exact Hctx]. simpl.
  intros row Hrow.
  destruct (@exists_last _ row) as (init & a & ->).
  { apply nonempty_length. lia. }
  exists (map (fun _ => map Fin rs) init), (map Fin rs).
  rewrite map_app, length_map. simpl. repeat split.
  rewrite Forall_map, Forall_forall. intros r _.
  rewrite (score_div_Fin ideal r HT). exact I.
Qed.

Lemma sample_returns_witness :
  exists y w',
    sample ideal draw0 (constant_model 3 (map Fin [0%R; 1%R])) [[3%Z]] 2 1 true (Some 1%Z) w0
    = (Ok y, w') /\
    extends_by (Z.to_nat 2) [[3%Z]] y.
Proof.
  apply (@sample_returns ideal ideal_ok unit draw0 _
           (constant_model 3 (map Fin [0%R; 1%R])) 2 1).
  - apply (@constant_model_finite 3 [0%R; 1%R]); simpl; [lia | lra].
  - lia.
  - simpl. lia.
  - simpl. lia.
  - repeat constructor.
Defined.


(** At temperature 0 nothing is rejected: the model is queried and a
    sequence is returned. *)
Lemma temperature_zero_reaches_model :
  sample cpu_kernel draw0 (constant_model 3 [Fin 1; Fin 2]) [[3%Z]] 1 0 false None w0
  = (Ok [[3; 0]%Z], {| calls := [[[3%Z]]]; gen := tt |}) /\
  ~ (exists e,
        fst (sample cpu_kernel draw0 (constant_model 3 [Fin 1; Fin 2]) [[3%Z]] 1 0
                    false None w0)
        = Raise e /\
        calls (snd (sample cpu_kernel draw0 (constant_model 3 [Fin 1; Fin 2]) [[3%Z]] 1 0
                           false None w0)) = calls w0).
Proof.
  assert (H : sample cpu_kernel draw0 (constant_model 3 [Fin 1; Fin 2]) [[3%Z]] 1 0
                     false None w0
              = (Ok [[3; 0]%Z], {| calls := [[[3%Z]]]; gen := tt |})).
  { unfold sample. change (Z.to_nat 1) with 1. rewrite sample_loop_S, step_greedy.
    unfold greedy_step, transformed. cbn -[score_div softmax topk_indices].
    rewrite !score_div_Fin_zero_pos by lra. reflexivity. }
  split; [exact H |]. rewrite H. simpl. intros (e & He & _). discriminate.
Qed.

Lemma no_validation_before_forward_witness :
  exists rest,
    calls (snd (sample ideal draw0 (constant_model 3 [Fin 1; Fin 2]) [[3%Z]] 1 0
                       false None w0)) =
    calls w0 ++ x_cond (get_block_size (constant_model 3 [Fin 1; Fin 2]) - 1) [[3%Z]]
             :: rest.
Proof.
  apply (@no_validation_before_forward ideal ideal_ok unit draw0 _
           (constant_model 3 [Fin 1; Fin 2]) [[3%Z]] 1 0 false None w0).
  - lra.
  - lia.
Defined.

(** A row of scores that is entirely [-inf] raises nothing without
    sampling: index 0 is appended. *)
Lemma all_neginf_greedy_returns :
  sample cpu_kernel draw0 (constant_model 3 [NegInf; NegInf]) [[5%Z]] 1 1 false None w0
  = (Ok [[5; 0]%Z], {| calls := [[[5%Z]]]; gen := tt |}) /\
  ~ (exists e,
        fst (sample cpu_kernel draw0 (constant_model 3 [NegInf; NegInf]) [[5%Z]] 1 1
                    false None w0)
        = Raise e).
Proof.
  assert (H : sample cpu_kernel draw0 (constant_model 3 [NegInf; NegInf]) [[5%Z]] 1 1
                     false None w0
              = (Ok [[5; 0]%Z], {| calls := [[[5%Z]]]; gen := tt |})).
  { unfold sample. change (Z.to_nat 1) with 1. rewrite sample_loop_S, step_greedy.
    unfold greedy_step, transformed. cbn -[score_div softmax topk_indices].
    rewrite !score_div_NegInf by lra. reflexivity. }
  split; [exact H |]. rewrite H. simpl. intros (e & He). discriminate.
Qed.

Lemma transformed_all_neginf :
  transformed ideal (constant_model 3 [NegInf; NegInf]) 2 1 None [[5%Z]]
  = Ok [[NegInf; NegInf]].
Proof.
  unfold transformed. cbn -[score_div].
  rewrite !score_div_NegInf by lra. reflexivity.
Qed.

Lemma all_neginf_row_witness :
  (forall n,
      sample_loop ideal draw0 (constant_model 3 [NegInf; NegInf]) 2 1 true None (S n)
                  [[5%Z]] w0
      = (Raise RuntimeError,
         {| calls := calls w0 ++ [x_cond 2 [[5%Z]]]; gen := gen w0 |})) /\
  (Forall (fun row => row <> []) [[NegInf; NegInf]] ->
   length [[NegInf; NegInf]] = length [[5%Z]] ->
   exists x',
     step ideal draw0 (constant_model 3 [NegInf; NegInf]) 2 1 false None [[5%Z]] w0
     = (Ok x', {| calls := calls w0 ++ [x_cond 2 [[5%Z]]]; gen := gen w0 |}) /\
     extends_by 1 [[5%Z]] x').
Proof.
  apply (@all_neginf_row ideal ideal_ok unit draw0 _ (constant_model 3 [NegInf; NegInf])
           2 1 None [[5%Z]] w0 [[NegInf; NegInf]]).
  - exact transformed_all_neginf.
  - left. repeat constructor.
Defined.

(** With a block size of 1 the window is 0, and the whole sequence is
    shown to the model. *)
Lemma block_size_one_context :
  calls (snd (sample cpu_kernel draw0 (constant_model 1 [Fin 0]) [[3; 4]%Z] 1 1
                     false None w0))
  = [[[3; 4]%Z]] /\
  ~ Forall (Forall (fun r =>
              (Z.of_nat (length r) <= get_block_size (constant_model 1 [Fin 0]) - 1)%Z))
      (calls (snd (sample cpu_kernel draw0 (constant_model 1 [Fin 0]) [[3; 4]%Z] 1 1
                          false None w0))).
Proof.
  assert (H : sample cpu_kernel draw0 (constant_model 1 [Fin 0]) [[3; 4]%Z] 1 1
                     false None w0
              = (Ok [[3; 4; 0]%Z], {| calls := [[[3; 4]%Z]]; gen := tt |})).
  { unfold sample. change (Z.to_nat 1) with 1. rewrite sample_loop_S, step_greedy.
    unfold greedy_step, transformed. cbn -[score_div softmax topk_indices].
    rewrite !score_div_Fin by lra. reflexivity. }
  rewrite H. simpl. split; [reflexivity |].
  intros HF. inversion HF as [| ? ? Hctx _]; subst.
  inversion Hctx as [| ? ? Hr _]; subst. simpl in Hr. lia.
Qed.

Lemma context_bounded_by_block_size_witness :
  exists new,
    calls (snd (sample ideal draw0 (constant_model 3 [Fin 0]) [[3; 4; 5]%Z] 2 1
                       false None w0)) = calls w0 ++ new /\
    Forall (Forall (fun r =>
              (Z.of_nat (length r) <= get_block_size (constant_model 3 [Fin 0]) - 1)%Z))
           new.
Proof.
  apply (@context_bounded_by_block_size ideal ideal_ok unit draw0 _
           (constant_model 3 [Fin 0]) [[3; 4; 5]%Z] 3 2 1 false None w0).
  - simpl. lia.
  - repeat constructor.
Defined.

Lemma context_is_trailing_slice_witness :
  (calls (snd (step ideal draw0 (constant_model 3 [Fin 0]) 2 1 false None
                    [[3; 4; 5]%Z] w0))
   = calls w0 ++ [x_cond 2 [[3; 4; 5]%Z]] /\
   x_cond 2 [[3; 4; 5]%Z]
   = map (fun r => skipn (3 - Nat.min 3 (Z.to_nat 2)) r) [[3; 4; 5]%Z] /\
   cols (Nat.min 3 (Z.to_nat 2)) (x_cond 2 [[3; 4; 5]%Z]) /\
   (3 <= Z.to_nat 2 -> x_cond 2 [[3; 4; 5]%Z] = [[3; 4; 5]%Z])) /\
  exists new,
    calls (snd (sample ideal draw0 (constant_model 3 [Fin 0]) [[3; 4; 5]%Z] 2 1
                       false None w0)) = calls w0 ++ new /\
    forall i ctx, nth_error new i = Some ctx ->
      exists x', extends_by i [[3; 4; 5]%Z] x' /\
                 ctx = map (fun r => skipn (3 + i - Nat.min (3 + i) (Z.to_nat 2)) r) x' /\
                 cols (Nat.min (3 + i) (Z.to_nat 2)) ctx /\
                 cols (3 + i) x'.
Proof.
  apply (@context_is_trailing_slice ideal ideal_ok unit draw0 _ (constant_model 3 [Fin 0])
           [[3; 4; 5]%Z] 3 2 1 false None w0).
  - simpl. lia.
  - repeat constructor.
Defined.

(** With [top_k = 1] the scores [2, 1, 0, 2] are truncated to
    [2, -inf, -inf, 2], whose probabilities are [1/2, 0, 0, 1/2], and the
    kernel returns position 3; without truncation the probabilities are two
    equal largest ones at the ends and two decreasing ones between them,
    and the kernel returns position 0. *)
Lemma top1_changes_greedy_choice :
  sample cpu_kernel draw0 (constant_model 3 [Fin 2; Fin 1; Fin 0; Fin 2]) [[5%Z]] 1 1
         false (Some 1%Z) w0
  = (Ok [[5; 3]%Z], {| calls := [[[5%Z]]]; gen := tt |}) /\
  sample cpu_kernel draw0 (constant_model 3 [Fin 2; Fin 1; Fin 0; Fin 2]) [[5%Z]] 1 1
         false None w0
  = (Ok [[5; 0]%Z], {| calls := [[[5%Z]]]; gen := tt |}).
Proof.
  split.
  - unfold sample. change (Z.to_nat 1) with 1. rewrite sample_loop_S, step_greedy.
    unfold greedy_step, transformed. cbn -[score_div softmax topk_indices top_k_logits].
    rewrite !score_div_Fin by lra. cbn [true_divide cpu_kernel].
    unfold top_k_logits, topk2. cbn [mapM_result].
    rewrite kernel_ends_decreasing_middle by lra.
    cbn -[softmax topk_indices Rltb].
    repeat first [rewrite Rltb_true by lra | rewrite Rltb_false by lra].
    cbn -[softmax topk_indices].
    rewrite topk_indices_rows. unfold softmax, softmax_row.
    cbn -[exp_sum topk].
    rewrite kernel_ends_equal_middle; [reflexivity |].
    apply Rdiv_lt_0_compat; [apply exp_pos | apply exp_sum_pos; reflexivity].
  - unfold sample. change (Z.to_nat 1) with 1. rewrite sample_loop_S, step_greedy.
    unfold greedy_step, transformed. cbn -[score_div softmax topk_indices].
    rewrite !score_div_Fin by lra. cbn [true_divide cpu_kernel].
    rewrite topk_indices_rows. unfold softmax, softmax_row.
    cbn -[exp_sum topk].
    assert (HS : (0 < / exp_sum [Fin (2 / 1); Fin (1 / 1); Fin (0 / 1); Fin (2 / 1)])%R).
    { apply Rinv_0_lt_compat. apply exp_sum_pos. reflexivity. }
    rewrite kernel_ends_decreasing_middle; [reflexivity | |];
      unfold Rdiv at 1 3; apply Rmult_lt_compat_r; try assumption;
      apply exp_increasing; lra.
Qed.

Lemma top1_selects_largest_score_witness :
  exists js x',
    step ideal draw0 (constant_model 3 [Fin 0; Fin 2]) 2 1 false (Some 1%Z) [[5%Z]] w0 =
    (Ok x', {| calls := calls w0 ++ [x_cond 2 [[5%Z]]]; gen := gen w0 |}) /\
    cat1 [[5%Z]] (as_long (column js)) = Ok x' /\
    Forall2 largest_at [[0 / 1; 2 / 1]%R] js.
Proof.
  apply (@top1_selects_largest_score ideal ideal_ok unit draw0 _
           (constant_model 3 [Fin 0; Fin 2]) 2 1 [[5%Z]] w0 [[0 / 1; 2 / 1]%R]).
  - unfold transformed. cbn -[score_div]. rewrite !score_div_Fin by lra. reflexivity.
  - reflexivity.
  - repeat constructor; discriminate.
Defined.

(** Four equal scores have four equal probabilities, and the token
    appended is 2, not the lowest index. *)
Lemma equal_probabilities_third_position :
  (exists p,
      rbind (transformed cpu_kernel (constant_model 3 [Fin 0; Fin 0; Fin 0; Fin 0]) 2 1
                         None [[5%Z]])
            (fun l' => Ok (softmax cpu_kernel l'))
      = Ok [[Fin p; Fin p; Fin p; Fin p]]) /\
  sample cpu_kernel draw0 (constant_model 3 [Fin 0; Fin 0; Fin 0; Fin 0]) [[5%Z]] 1 1
         false None w0
  = (Ok [[5; 2]%Z], {| calls := [[[5%Z]]]; gen := tt |}).
Proof.
  split.
  - eexists. unfold transformed. cbn -[score_div exp_sum].
    rewrite !score_div_Fin by lra. reflexivity.
  - unfold sample. change (Z.to_nat 1) with 1. rewrite sample_loop_S, step_greedy.
    unfold greedy_step, transformed. cbn -[score_div softmax topk_indices].
    rewrite !score_div_Fin by lra. cbn [true_divide cpu_kernel].
    rewrite topk_indices_rows. unfold softmax, softmax_row.
    cbn -[exp_sum topk].
    rewrite kernel_four_equal. reflexivity.
Qed.

Lemma transformed_two_scores :
  transformed ideal (constant_model 3 [Fin 0; NegInf]) 2 1 None [[5%Z]]
  = Ok [[Fin (0 / 1); NegInf]].
Proof.
  unfold transformed. cbn -[score_div].
  rewrite score_div_Fin, score_div_NegInf by lra. reflexivity.
Qed.

Lemma greedy_selection_witness :
  (exists js x',
      step ideal draw0 (constant_model 3 [Fin 0; NegInf]) 2 1 false None [[5%Z]] w0 =
      (Ok x', {| calls := calls w0 ++ [x_cond 2 [[5%Z]]]; gen := gen w0 |}) /\
      cat1 [[5%Z]] (as_long (column js)) = Ok x' /\
      Forall2 (fun row j => exists ps,
                 softmax_row ideal row = map Fin ps /\ largest_at ps j /\
                 (0 < nth j ps 0)%R /\ is_fin (nth j row NaN))
              [[Fin (0 / 1); NegInf]] js) /\
  (forall (rng' : Type) (draw' : rng' -> list R -> nat * rng') (w' : world rng'),
      fst (sample ideal draw0 (constant_model 3 [Fin 0; NegInf]) [[5%Z]] 2 1 false None w0) =
      fst (sample ideal draw' (constant_model 3 [Fin 0; NegInf]) [[5%Z]] 2 1 false None w')).
Proof.
  apply (@greedy_selection ideal ideal_ok unit draw0 _ (constant_model 3 [Fin 0; NegInf])
           [[5%Z]] 2 2 1 None w0 [[Fin (0 / 1); NegInf]]).
  - exact transformed_two_scores.
  - reflexivity.
  - constructor; [| constructor]. split.
    + constructor; [right; exact I |]. constructor; [left; reflexivity | constructor].
    + left. exact I.
Defined.



(** ** The further properties on concrete inputs *)

Lemma top_k_logits_out_of_range_witness :
  (0%Z = 0%Z -> top_k_logits ideal [[Fin 1; NaN]] 0 = Raise IndexError) /\
  ((3 < 0)%Z \/ (Z.of_nat 2 < 3)%Z ->
   top_k_logits ideal [[Fin 1; NaN]] 3 = Raise RuntimeError).
Proof.
  split.
  - apply (@top_k_logits_out_of_range ideal ideal_ok [[Fin 1; NaN]] 2 0);
      [discriminate | repeat constructor].
  - apply (@top_k_logits_out_of_range ideal ideal_ok [[Fin 1; NaN]] 2 3);
      [discriminate | repeat constructor].
Defined.

Lemma top_k_logits_only_lowers_witness :
  Forall2 (fun row o =>
             Forall2 (fun s s' => s' = s \/ (s' = NegInf /\ s <> NaN)) row o)
          [[NaN; PosInf; Fin 1]] [[NaN; PosInf; NegInf]].
Proof.
  apply (@top_k_logits_only_lowers ideal ideal_ok
           [[NaN; PosInf; Fin 1]] [[NaN; PosInf; NegInf]] 2).
  reflexivity.
Defined.

Lemma top_k_logits_full_vocabulary_witness :
  top_k_logits ideal [[NaN; Fin 2; NegInf]; [Fin 1; Fin 1; PosInf]] (Z.of_nat 3)
  = Ok [[NaN; Fin 2; NegInf]; [Fin 1; Fin 1; PosInf]].
Proof.
  apply (@top_k_logits_full_vocabulary ideal ideal_ok
           [[NaN; Fin 2; NegInf]; [Fin 1; Fin 1; PosInf]] 3).
  - lia.
  - repeat constructor.
Defined.

Lemma top_k_logits_idempotent_witness :
  rbind (top_k_logits ideal (map (map Fin) [[1; 3; 2; 2]%R]) 2)
        (fun o => top_k_logits ideal o 2) =
  top_k_logits ideal (map (map Fin) [[1; 3; 2; 2]%R]) 2.
Proof.
  apply (@top_k_logits_idempotent ideal ideal_ok [[1; 3; 2; 2]%R] 4 2).
  - repeat constructor.
  - lia.
Defined.

Lemma top_k_logits_row_by_row_witness :
  Forall2 (fun row o => top_k_logits ideal [row] 1 = Ok [o])
          [[Fin 1; PosInf]; [NaN; Fin 2]] [[NegInf; PosInf]; [NaN; Fin 2]].
Proof.
  apply (@top_k_logits_row_by_row ideal ideal_ok [[Fin 1; PosInf]; [NaN; Fin 2]]
           [[NegInf; PosInf]; [NaN; Fin 2]] 1).
  reflexivity.
Defined.

Lemma top_k_logits_1_3_2 :
  top_k_logits ideal (map (map Fin) [[1; 3; 2]%R]) 2 = Ok [[NegInf; Fin 3; Fin 2]].
Proof.
  unfold top_k_logits, topk2, topk. change (Z.to_nat 2) with 2. cbn -[Rltb].
  repeat (first [rewrite Rltb_true by lra | rewrite Rltb_false by lra]; cbn -[Rltb]).
  reflexivity.
Qed.

(** The probabilities of the implementation without rounding. *)
Lemma ideal_softmax_row row :
  softmax_defined row = true ->
  softmax_row ideal row = map Fin (map (prob_of (exp_sum row)) row).
Proof.
  intros Hd. unfold softmax_row. rewrite Hd. cbn [softmax_prob ideal].
  rewrite map_map.
  transitivity (map (fun e : nat * score => Fin (prob_of (exp_sum row) (snd e)))
                    (indexed row)).
  - apply map_ext_in. intros [i s] Hin. simpl.
    rewrite indexed_entries in Hin. apply in_map_iff in Hin.
    destruct Hin as (i' & Heq & _). inversion Heq; subst.
    destruct (nth i row NaN); reflexivity.
  - rewrite <- (map_map snd (fun s => Fin (prob_of (exp_sum row) s))), indexed_snd.
    reflexivity.
Qed.

Lemma Rsum_prob_of S row :
  Rsum (map (prob_of S) row) = (exp_sum row / S)%R.
Proof.
  induction row as [| s row IH]; simpl.
  - unfold Rdiv. ring.
  - rewrite IH. destruct s; simpl; unfold Rdiv; ring.
Qed.

Lemma ideal_softmax_row_drawable row :
  softmax_defined row = true ->
  drawable (softmax_row ideal row) = Some (map (prob_of (exp_sum row)) row).
Proof.
  intros Hd. rewrite (ideal_softmax_row _ Hd).
  destruct (softmax_defined_entries _ Hd) as [_ Hex].
  apply exp_sum_pos in Hex.
  unfold drawable. rewrite weights_Fin.
  - rewrite Rsum_prob_of. rewrite Rltb_true; [reflexivity |].
    unfold Rdiv. rewrite Rinv_r; lra.
  - rewrite Forall_map, Forall_forall. intros s _. apply prob_of_nonneg. assumption.
Qed.

Lemma greedy_within_top_k_witness :
  Forall2 (fun rs i => exists j vk,
               i = [j] /\ j < length rs /\
               kth_largest_real (Z.to_nat 2) vk rs /\
               (vk <= nth j rs 0)%R)
          [[1; 3; 2]%R] [[1]].
Proof.
  apply (@greedy_within_top_k ideal ideal_ok [[1; 3; 2]%R] 2 [[NegInf; Fin 3; Fin 2]]).
  - exact top_k_logits_1_3_2.
  - rewrite topk_indices_rows. unfold softmax. cbn [map mapM_result].
    rewrite (@ideal_softmax_row [NegInf; Fin 3; Fin 2]) by reflexivity.
    assert (HS : (0 < / exp_sum [NegInf; Fin 3; Fin 2])%R).
    { apply Rinv_0_lt_compat. apply exp_sum_pos. reflexivity. }
    assert (H32 : (exp 2 / exp_sum [NegInf; Fin 3; Fin 2]
                   < exp 3 / exp_sum [NegInf; Fin 3; Fin 2])%R).
    { unfold Rdiv. apply Rmult_lt_compat_r; [assumption | apply exp_increasing; lra]. }
    assert (H03 : (0 < exp 3 / exp_sum [NegInf; Fin 3; Fin 2])%R).
    { unfold Rdiv. apply Rmult_lt_0_compat; [apply exp_pos | assumption]. }
    unfold topk. cbn -[Rltb exp_sum].
    repeat (first [rewrite Rltb_true by lra | rewrite Rltb_false by lra];
            cbn -[Rltb exp_sum]).
    reflexivity.
Defined.

Lemma sample_queries_witness :
  exists new,
    calls {| calls := [[[3%Z]]]; gen := tt |} = calls w0 ++ new /\
    (length new = Z.to_nat 1 /\ extends_by (Z.to_nat 1) [[3%Z]] [[3; 0]%Z]).
Proof.
  apply (@sample_queries ideal ideal_ok unit draw0 _ (constant_model 3 [Fin 1; Fin 2])
           [[3%Z]] 1 0 false None w0 {| calls := [[[3%Z]]]; gen := tt |} (Ok [[3; 0]%Z])).
  unfold sample. change (Z.to_nat 1) with 1. rewrite sample_loop_S, step_greedy.
  unfold greedy_step, transformed. cbn -[score_div softmax topk_indices].
  rewrite !score_div_Fin_zero_pos by lra. reflexivity.
Defined.

Lemma sample_continues_witness :
  sample ideal draw0 (constant_model 3 [Fin 0; Fin 1]) [[3%Z]] (2 + 3) 1 true (Some 1%Z) w0 =
  match sample ideal draw0 (constant_model 3 [Fin 0; Fin 1]) [[3%Z]] 2 1 true
               (Some 1%Z) w0 with
  | (Ok y, w') =>
      sample ideal draw0 (constant_model 3 [Fin 0; Fin 1]) y 3 1 true (Some 1%Z) w'
  | (Raise e, w') => (Raise e, w')
  end.
Proof.
  apply (@sample_continues ideal unit draw0 _ (constant_model 3 [Fin 0; Fin 1])
           [[3%Z]] 2 3);
    lia.
Defined.

Lemma sample_negative_steps_witness :
  sample ideal draw0 (constant_model 3 [Fin 0; Fin 1]) [[3%Z]] (-2) 1 true (Some 1%Z) w0
  = (Ok [[3%Z]], w0).
Proof.
  apply (@sample_negative_steps ideal unit draw0 _ (constant_model 3 [Fin 0; Fin 1])). lia.
Defined.

Lemma x_cond_nonpositive_window_witness :
  x_cond (-1) [[3; 4; 5]%Z] = map (skipn (Z.to_nat (- (-1)))) [[3; 4; 5]%Z].
Proof.
  apply (@x_cond_nonpositive_window (-1) [[3; 4; 5]%Z]). lia.
Defined.

Lemma x_cond_slides_witness :
  cat1 (map (@tl Z) (x_cond 2 [[3; 4; 5]%Z])) [[6%Z]]
  = Ok (x_cond 2 [[3; 4; 5; 6]%Z]).
Proof.
  apply (@x_cond_slides 2 3 [[3; 4; 5]%Z] [[6%Z]] [[3; 4; 5; 6]%Z]).
  - lia.
  - repeat constructor.
  - simpl. lia.
  - repeat constructor.
  - reflexivity.
Defined.

Lemma window_determines_continuation_witness :
  match sample ideal draw0 (constant_model 3 [Fin 0]) [[1; 2; 3]%Z] 2 1 false None w0,
        sample ideal draw0 (constant_model 3 [Fin 0]) [[9; 2; 3]%Z] 2 1 false None w0 with
  | (Ok y, w1), (Ok y', w1') =>
      w1 = w1' /\
      shares_tail (Z.to_nat (get_block_size (constant_model 3 [Fin 0]) - 1) + Z.to_nat 2)
                  y y'
  | (Raise e, w1), (Raise e', w1') => e = e' /\ w1 = w1'
  | _, _ => False
  end.
Proof.
  apply (@window_determines_continuation ideal ideal_ok unit draw0 _
           (constant_model 3 [Fin 0]) 3 3).
  - simpl. lia.
  - repeat constructor.
  - repeat constructor.
  - constructor; [| constructor].
    exists [1%Z], [9%Z], [2; 3]%Z. repeat split. simpl. lia.
Defined.

Lemma draw_first_ok : draw_ok draw_first.
Proof.
  intros g ws. unfold draw_first. simpl. induction 1 as [| p ws Hp _ IH]; simpl; intros Hs.
  - lra.
  - unfold Rltb. destruct (Rlt_dec 0 p) as [Hpos | Hn]; simpl; [split; [lia | assumption] |].
    destruct IH as [Hlt Hw]; [lra |]. split; [lia | assumption].
Qed.

Lemma top_k_sampling_within_top_k_witness :
  Forall2 (fun rs i => exists j vk,
               i = [j] /\ j < length rs /\
               kth_largest_real (Z.to_nat 2) vk rs /\
               (vk <= nth j rs 0)%R)
          [[1; 3; 2]%R]
          [[first_positive
              (map (prob_of (exp_sum [NegInf; Fin 3; Fin 2])) [NegInf; Fin 3; Fin 2])]].
Proof.
  apply (@top_k_sampling_within_top_k ideal ideal_ok unit draw_first [[1; 3; 2]%R] 2
           [[NegInf; Fin 3; Fin 2]] _ w0 w0).
  - exact draw_first_ok.
  - exact top_k_logits_1_3_2.
  - unfold multinomial, softmax. cbn [map all_drawable].
    rewrite (@ideal_softmax_row_drawable [NegInf; Fin 3; Fin 2]) by reflexivity.
    reflexivity.
Defined.

Lemma constant_model_shape bsz out c :
  Forall (Forall (fun v : list score => length v = length out))
         (target_layer (constant_model bsz out) (local_forward (constant_model bsz out) c)).
Proof.
  simpl. rewrite Forall_map, Forall_forall. intros row _.
  rewrite Forall_map, Forall_forall. intros tok _. reflexivity.
Qed.

Lemma tokens_in_vocabulary_witness : extends_within 1 [[3; 4]%Z] [[3; 4; 0]%Z].
Proof.
  apply (@tokens_in_vocabulary ideal ideal_ok unit draw0 _ (constant_model 3 [Fin 0]) 1
           [[3; 4]%Z] 1 1 false None w0 {| calls := [[[3; 4]%Z]]; gen := tt |}
           [[3; 4; 0]%Z]).
  - intros c. apply (@constant_model_shape 3 [Fin 0]).
  - discriminate.
  - unfold sample. change (Z.to_nat 1) with 1. rewrite sample_loop_S, step_greedy.
    unfold greedy_step, transformed. cbn -[score_div softmax topk_indices].
    rewrite !score_div_Fin by lra. reflexivity.
Defined.

(** ** A worked run *)

(** Vocabulary of 10, index 7 strictly greatest, seed [[3]], two steps,
    block size 6, no sampling: the run returns [[3; 7; 7]] after showing
    the model [[3]] and then [[3; 7]]. *)
Example greedy_run_3_7_7 :
  sample cpu_kernel draw0
    (constant_model 6 (map Fin [0; 0; 0; 0; 0; 0; 0; 1; 0; 0]%R))
    [[3%Z]] 2 1 false None w0
  = (Ok [[3; 7; 7]%Z], {| calls := [[[3%Z]]; [[3; 7]%Z]]; gen := tt |}).
Proof.
  assert (Hrow : exists v,
             topk cpu_kernel
               (softmax_row cpu_kernel
                  (map (fun s => score_div cpu_kernel s 1)
                       (map Fin [0; 0; 0; 0; 0; 0; 0; 1; 0; 0]%R))) 1
             = Ok ([v], [7])).
  { cbn -[score_div softmax_row]. rewrite !score_div_Fin by lra.
    cbn [true_divide cpu_kernel]. unfold softmax_row. cbn -[exp_sum topk].
    set (S := exp_sum _).
    assert (HS : (0 < / S)%R).
    { apply Rinv_0_lt_compat. apply exp_sum_pos. reflexivity. }
    assert (Hlt : (exp (0 / 1) / S < exp (1 / 1) / S)%R).
    { unfold Rdiv at 1 3. apply Rmult_lt_compat_r; [assumption |].
      apply exp_increasing. lra. }
    eexists.
    apply (@topk_one_strict_max cpu_kernel cpu_kernel_ok
             (map Fin [exp (0 / 1) / S; exp (0 / 1) / S; exp (0 / 1) / S; exp (0 / 1) / S;
                       exp (0 / 1) / S; exp (0 / 1) / S; exp (0 / 1) / S]%R)
             (Fin (exp (1 / 1) / S))
             (map Fin [exp (0 / 1) / S; exp (0 / 1) / S]%R)).
    - repeat constructor; apply topk_geb_Fin_false; assumption.
    - repeat constructor; apply topk_geb_Fin_false; assumption. }
  destruct Hrow as [v Hrow].
  assert (Hstep : forall x,
             transformed cpu_kernel
               (constant_model 6 (map Fin [0; 0; 0; 0; 0; 0; 0; 1; 0; 0]%R)) 5 1 None x
             = Ok [map (fun s => score_div cpu_kernel s 1)
                       (map Fin [0; 0; 0; 0; 0; 0; 0; 1; 0; 0]%R)] ->
             greedy_step cpu_kernel
               (constant_model 6 (map Fin [0; 0; 0; 0; 0; 0; 0; 1; 0; 0]%R)) 5 1 None x
             = cat1 x [[7%Z]]).
  { intros x Htr. unfold greedy_step. rewrite Htr. cbn [rbind].
    rewrite topk_indices_rows. unfold softmax. cbn [map mapM_result].
    cbn [map] in Hrow. rewrite Hrow. reflexivity. }
  unfold sample. change (Z.to_nat 2) with 2.
  rewrite sample_loop_S, step_greedy, Hstep by reflexivity.
  cbn [cat1 rbind app].
  rewrite sample_loop_S, step_greedy, Hstep by reflexivity.
  reflexivity.
Qed.
